(** * video-sampler: the sampling orchestration core

    A shallow embedding of [src/video_sampler/sampler.py]: the base engine
    [VideoSampler], the segment-aware engine [SegmentSampler] and the
    [Worker]'s producer and consumer loops, followed by the properties the
    specification states about them.

    Conventions of the embedding.
    - A Python generator is modelled by the trace of what it does when it is
      consumed to completion: the calls it makes to its collaborators and the
      batches it yields, in order, together with how it ends (normally or
      with an exception).
    - [self.stats] is a [collections.Counter]: a finite map from strings to
      integers that reads 0 at a missing key.
    - Timestamps are Python floats.  The engine only subtracts and compares
      them, so it is written once over an interface [TimeOps], whose instance
      [float_time] is IEEE binary64 arithmetic ([float]); statements about
      the arithmetic are made for that instance.
    - The frame buffer and the gate are collaborators whose code is not part
      of the engine; they are interfaces ([FrameBuffer], [Gate]) over an
      explicit state.
    - [Worker.launch] starts [write_queue] on a thread of its own and runs
      [queue_reader] on the calling thread; the two meet only in the queue,
      so a launch is a schedule that interleaves the producer's puts with
      the consumer's loop turns.
    - [console.print] calls and the [debug] snapshot of the buffer have no
      effect on the state and are left out. *)

From Stdlib Require Import ZArith Lia.
From Stdlib Require Import Floats.
From stdpp Require Import base option list sorting gmap strings.

Open Scope string_scope.
Open Scope list_scope.

(** ** Timestamps *)

Class TimeOps (T : Type) := {
  (** an [int] promoted to a float, as in [ftime - prev_time] with
      [prev_time = -10] *)
  t_of_int : Z -> T;
  (** [a / b] on two Python [int]s (true division) *)
  t_truediv : Z -> Z -> T;
  (** [a - b] *)
  t_sub : T -> T -> T;
  (** [a < b] *)
  t_ltb : T -> T -> bool;
  (** [a <= b] *)
  t_leb : T -> T -> bool;
  (** [bool(a)]: a float is falsy exactly when it equals zero *)
  t_nonzero : T -> bool
}.

(** [a > b] is [b < a], for IEEE floats as for any order. *)
Definition t_gtb {T} `{TimeOps T} (a b : T) : bool := t_ltb b a.

(** A Python [int] as an unrounded binary floating-point number. *)
Definition Z2SF (z : Z) : spec_float :=
  match z with
  | 0%Z => S754_zero false
  | Z.pos m => S754_finite false m 0
  | Z.neg m => S754_finite true m 0
  end.

(** [float(z)]: the [int] rounded to the nearest binary64 value, ties to
    even.  (Python raises [OverflowError] beyond the binary64 range, where
    this gives an infinity; the engine converts only the constant [-10].) *)
Definition float_of_Z (z : Z) : float :=
  SF2Prim (binary_normalize prec emax z 0 false).

(** [a / b] on two [int]s: the exact quotient rounded once to the nearest
    binary64 value.  (Python raises [ZeroDivisionError] for [b = 0] and
    [OverflowError] for a quotient beyond the binary64 range; the engine
    divides times in milliseconds by the literal [1000].) *)
Definition float_truediv (a b : Z) : float :=
  SF2Prim (SFdiv prec emax (Z2SF a) (Z2SF b)).

(** Python floats: IEEE binary64 arithmetic and comparisons. *)
#[export] Instance float_time : TimeOps float := {
  t_of_int := float_of_Z;
  t_truediv := float_truediv;
  t_sub := PrimFloat.sub;
  t_ltb := PrimFloat.ltb;
  t_leb := PrimFloat.leb;
  t_nonzero a := negb (PrimFloat.eqb a PrimFloat.zero)
}.

(** ** Exceptions

    The exceptions the code names or can meet.  [av.open] and
    [container.decode] raise PyAV errors; [write_queue] recognises exactly
    two of them.  [StopIteration] escaping a generator body surfaces as
    [RuntimeError] (PEP 479); [KeyError] comes from a metadata lookup;
    [TypeError] from arithmetic or a comparison on a [time] that is
    [None]. *)

Inductive exn :=
| IsADirectoryError
| InvalidDataError
| FileNotFoundError
| RuntimeError
| KeyError
| TypeError.

(** [except (av.IsADirectoryError, av.InvalidDataError)] *)
Definition recognized (e : exn) : bool :=
  match e with
  | IsADirectoryError | InvalidDataError => true
  | _ => false
  end.

Inductive outcome :=
| Done
| Raised (e : exn).

(** ** Statistics: a [Counter] *)

Abbreviation Counter := (gmap string Z).

(** [c[k]]: a missing key reads 0 *)
Definition stat (c : Counter) (k : string) : Z := default 0%Z (c !! k).

(** [c[k] += n] *)
Definition stat_add (k : string) (n : Z) (c : Counter) : Counter :=
  <[k := (stat c k + n)%Z]> c.

(** Consecutive elements of a list are related by [P]. *)
Definition consecutive {A} (P : A -> A -> Prop) (l : list A) : Prop :=
  forall i a b, l !! i = Some a -> l !! S i = Some b -> P a b.

Section Sampler.

Context {T : Type} `{TimeOps T}.
(** [Img]: a PIL image; [Group]: what the buffer hands to the gate. *)
Context {Img Group : Type}.

(** ** Data model *)

Inductive pyval :=
| VBool (b : bool)
| VInt (z : Z)
| VFloat (t : T).

Definition truthy (v : pyval) : bool :=
  match v with
  | VBool b => b
  | VInt z => negb (z =? 0)%Z
  | VFloat t => t_nonzero t
  end.

Abbreviation Metadata := (gmap string pyval).

(** The payload of a [FrameObject]: a PIL image, or some other object. *)
Inductive payload :=
| PILImage (i : Img)
| NotAnImage.

(** Modelled from the spec: [schemas.FrameObject] is not part of the source
    at hand; section 3 gives it as a frame (an image or null) and a metadata
    mapping from strings to values. *)
Record FrameObject := {
  frame : option payload;
  metadata : Metadata
}.

(** Modelled from the spec: [schemas.PROCESSING_DONE_ITERABLE], the terminal
    sentinel batch: its sole element has a null frame and metadata
    [{"end": True}]. *)
Definition PROCESSING_DONE : FrameObject :=
  {| frame := None; metadata := {["end" := VBool true]} |}.

Definition PROCESSING_DONE_ITERABLE : list FrameObject := [PROCESSING_DONE].

(** [frame_object.metadata.get("end", False)] *)
Definition is_end (fo : FrameObject) : bool :=
  truthy (default (VBool false) (metadata fo !! "end")).

(** Modelled from the spec: [gating.GatedResult], the accepted frames and the
    number of frames the gate discarded in this call. *)
Record GatedResult := {
  frames : list FrameObject;
  N : Z
}.

(** Modelled from the spec: [buffer.SamplerConfig], with the fields of
    section 3; the buffer and gate sub-configurations only reach the
    collaborators' constructors. *)
Record SamplerConfig := {
  min_frame_interval_sec : T;
  keyframes_only : bool;
  debug : bool;
  print_stats : bool;
  queue_wait : T
}.

(** Modelled from the spec: [keyword_capture.subtitle_line], a segment with
    its bounds in milliseconds. *)
Record subtitle_line := {
  start_time : Z;
  end_time : Z;
  content : string
}.

(** ** The collaborators *)

(** Modelled from the spec: the frame buffer of [buffer.py], by the
    operations of section 6, over its state [B]. *)
Class FrameBuffer (B : Type) := {
  (** [create_buffer(cfg.buffer_config)] *)
  buffer_init : B;
  (** [add(item, metadata)]: nothing, or a completed group *)
  buffer_add : B -> Img -> Metadata -> B * option Group;
  (** [final_flush()]: the remaining results, each possibly falsy *)
  buffer_final_flush : B -> list (option Group) * B;
  (** [clear()] *)
  buffer_clear : B -> B
}.

(** Modelled from the spec: the gate of [gating.py], by the operations of
    section 6, over its state [G]. *)
Class Gate (G : Type) := {
  (** [create_gate(cfg.gate_config)] *)
  gate_init : G;
  (** [self.gate], called on the unpacked group *)
  gate_call : G -> Group -> G * GatedResult;
  (** [gate.flush()] *)
  gate_flush : G -> G * GatedResult
}.

(** ** The decoder

    What [container.decode(stream)] yields: [None], a frame whose [time]
    raises [AttributeError], a frame whose [time] is [None] (a frame
    without a presentation timestamp: PyAV returns [None], it does not
    raise), or a frame with a timestamp.  The image [i] is what
    [frame.to_image()] gives. *)

Inductive av_frame :=
| NoFrame
| Untimed (i : Img)
| NullTime (i : Img)
| Timed (ftime : T) (i : Img).

(** The frames a decode produces, and the error that ends it, if any. *)
Record decode_stream := {
  decoded_frames : list av_frame;
  failure : option exn
}.

(** What a video path denotes: [av.open] raises, or gives a container whose
    decode depends on the [skip_frame] hint. *)
Inductive video :=
| OpenFails (e : exn)
| Opens (decode : bool -> decode_stream).

Context {B G : Type} `{FrameBuffer B} `{Gate G}.

(** ** The engine's observable actions *)

Inductive event :=
| EvSubmit (i : Img) (m : Metadata)
| EvGate (res : Group) (r : GatedResult)
| EvGateFlush (r : GatedResult)
| EvSegment (s : subtitle_line)
| EvYield (batch : list FrameObject).

Record VideoSampler := {
  cfg : SamplerConfig;
  frame_buffer : B;
  gate : G;
  stats : Counter
}.

(** [VideoSampler.__init__] ([deepcopy] of an immutable record is the record) *)
Definition new_sampler (c : SamplerConfig) : VideoSampler :=
  {| cfg := c; frame_buffer := buffer_init; gate := gate_init; stats := ∅ |}.

(** The state of one run of [sample]: the engine, the local [prev_time] and
    the trace so far. *)
Record run_state := {
  self : VideoSampler;
  prev_time : T;
  trace : list event
}.

Definition set_stats (f : Counter -> Counter) (st : run_state) : run_state :=
  {| self := {| cfg := cfg (self st); frame_buffer := frame_buffer (self st);
                gate := gate (self st); stats := f (stats (self st)) |};
     prev_time := prev_time st; trace := trace st |}.

Definition set_buffer (b : B) (st : run_state) : run_state :=
  {| self := {| cfg := cfg (self st); frame_buffer := b;
                gate := gate (self st); stats := stats (self st) |};
     prev_time := prev_time st; trace := trace st |}.

Definition set_gate (g : G) (st : run_state) : run_state :=
  {| self := {| cfg := cfg (self st); frame_buffer := frame_buffer (self st);
                gate := g; stats := stats (self st) |};
     prev_time := prev_time st; trace := trace st |}.

Definition set_prev_time (t : T) (st : run_state) : run_state :=
  {| self := self st; prev_time := t; trace := trace st |}.

Definition emit (e : event) (st : run_state) : run_state :=
  {| self := self st; prev_time := prev_time st; trace := trace st ++ [e] |}.

(** [if gated_obj.frames: yield gated_obj.frames] *)
Definition yield_frames (r : GatedResult) (st : run_state) : run_state :=
  match frames r with
  | [] => st
  | _ :: _ => emit (EvYield (frames r)) st
  end.

(** One gate invocation on a completed group (lines 105-109 and 50-54; the
    two places differ only in whether [produced] is bumped before or after
    the call, which the gate cannot see). *)
Definition run_gate (res : Group) (st : run_state) : run_state :=
  let '(g', gated_obj) := gate_call (gate (self st)) res in
  let st := emit (EvGate res gated_obj) (set_gate g' st) in
  let st := set_stats (stat_add "produced" 1) st in
  let st := set_stats (stat_add "gated" (N gated_obj)) st in
  yield_frames gated_obj st.

(** [{"frame_time": ftime, "frame_indx": frame_indx}] *)
Definition frame_meta (ftime : T) (frame_indx : nat) : Metadata :=
  <["frame_indx" := VInt (Z.of_nat frame_indx)]> {["frame_time" := VFloat ftime]}.

(** Lines 99-109 (and 204-214): hand the frame to the buffer, gate what the
    buffer completes. *)
Definition submit (frame_indx : nat) (ftime : T) (frame_pil : Img)
    (st : run_state) : run_state :=
  let st := set_stats (stat_add "decoded" 1) st in
  let '(b', res) := buffer_add (frame_buffer (self st)) frame_pil
                      (frame_meta ftime frame_indx) in
  let st := emit (EvSubmit frame_pil (frame_meta ftime frame_indx))
              (set_buffer b' st) in
  match res with
  | Some g => run_gate g st
  | None => st
  end.

(** Lines 85-109 (and 190-214): count the frame, apply the minimum-interval
    filter, submit. *)
Definition interval_filter (frame_indx : nat) (ftime : T) (i : Img)
    (st : run_state) : run_state :=
  let time_diff := t_sub ftime (prev_time st) in
  let st := set_stats (stat_add "total" 1) st in
  if t_ltb time_diff (min_frame_interval_sec (cfg (self st))) then st
  else submit frame_indx ftime i (set_prev_time ftime st).

(** The body of the base engine's decode loop, lines 78-109: the state the
    iteration leaves and the exception it raises, if any.  A [None] frame
    and an [AttributeError] on [frame.time] are skipped; a [time] that is
    [None] reaches [ftime - prev_time] at line 85, which raises
    [TypeError] before anything is counted. *)
Definition process_frame (frame_indx : nat) (fr : av_frame)
    (st : run_state) : run_state * option exn :=
  match fr with
  | NoFrame => (st, None)
  | Untimed _ => (st, None)
  | NullTime _ => (st, Some TypeError)
  | Timed ftime i => (interval_filter frame_indx ftime i st, None)
  end.

(** [for frame_indx, frame in enumerate(container.decode(stream))]; an
    exception raised by the body leaves the loop. *)
Fixpoint decode_loop (fs : list av_frame) (frame_indx : nat)
    (st : run_state) : run_state * option exn :=
  match fs with
  | [] => (st, None)
  | fr :: fs' =>
      match process_frame frame_indx fr st with
      | (st', None) => decode_loop fs' (S frame_indx) st'
      | (st', Some err) => (st', Some err)
      end
  end.

(** [for res in self.frame_buffer.final_flush(): if res: ...] *)
Fixpoint flush_groups (rs : list (option Group)) (st : run_state) : run_state :=
  match rs with
  | [] => st
  | Some res :: rs' => flush_groups rs' (run_gate res st)
  | None :: rs' => flush_groups rs' st
  end.

(** [VideoSampler.flush_buffer], lines 46-59. *)
Definition flush_buffer (st : run_state) : run_state :=
  let '(rs, b') := buffer_final_flush (frame_buffer (self st)) in
  let st := flush_groups rs (set_buffer b' st) in
  let '(g', gated_obj) := gate_flush (gate (self st)) in
  let st := emit (EvGateFlush gated_obj) (set_gate g' st) in
  let st := set_stats (stat_add "gated" (N gated_obj)) st in
  let st := yield_frames gated_obj st in
  emit (EvYield PROCESSING_DONE_ITERABLE) st.

(** Lines 70-76: [self.stats.clear()], [self.frame_buffer.clear()] and the
    initial [prev_time = -10]. *)
Definition start_run (e : VideoSampler) : run_state :=
  {| self := {| cfg := cfg e; frame_buffer := buffer_clear (frame_buffer e);
                gate := gate e; stats := ∅ |};
     prev_time := t_of_int (-10);
     trace := [] |}.

(** [VideoSampler.sample], consumed to completion. *)
Definition sample (e : VideoSampler) (v : video) : run_state * outcome :=
  let st := start_run e in
  match v with
  | OpenFails err => (st, Raised err)
  | Opens decode =>
      let s := decode (keyframes_only (cfg e)) in
      match decode_loop (decoded_frames s) 0 st with
      | (st, Some err) => (st, Raised err)
      | (st, None) =>
          match failure s with
          | Some err => (st, Raised err)
          | None => (flush_buffer st, Done)
          end
      end
  end.

(** The batches a trace yields, in order. *)
Definition yields (tr : list event) : list (list FrameObject) :=
  omap (fun e => match e with EvYield b => Some b | _ => None end) tr.

(** The body of [write_queue], lines 114-125, given what [self.sample] does:
    every yielded batch is put on the queue; a recognised error adds the
    sentinel; any other exception leaves the function (and ends the
    producer thread). *)
Definition relay (tr : list event) (o : outcome)
    (q : list (list FrameObject)) : list (list FrameObject) * outcome :=
  let q := q ++ yields tr in
  match o with
  | Done => (q, Done)
  | Raised err =>
      if recognized err then (q ++ [PROCESSING_DONE_ITERABLE], Done)
      else (q, Raised err)
  end.

(** [VideoSampler.write_queue] *)
Definition write_queue (e : VideoSampler) (v : video)
    (q : list (list FrameObject)) : VideoSampler * list (list FrameObject) * outcome :=
  let '(st, o) := sample e v in
  let '(q', o') := relay (trace st) o q in
  (self st, q', o').

(** ** The segment-aware engine *)

Record SegmentSampler := {
  base : VideoSampler;
  (** the iterator's remaining elements; [next] pops the head and raises
      [StopIteration] on the empty list *)
  segment_generator : list subtitle_line
}.

(** [SegmentSampler.__init__] *)
Definition new_segment_sampler (c : SamplerConfig)
    (segments : list subtitle_line) : SegmentSampler :=
  {| base := new_sampler c; segment_generator := segments |}.

(** The run state with the tracker's locals. *)
Record seg_state := {
  run : run_state;
  segment_boundary_end_sec : T;
  segment_boundary_start_sec : T
}.

(** Lines 146-148 and 170-173: the pulled segment becomes the current one. *)
Definition enter_segment (next_segment : subtitle_line) (r : run_state) : seg_state :=
  {| run := emit (EvSegment next_segment) r;
     segment_boundary_end_sec := t_truediv (end_time next_segment) 1000;
     segment_boundary_start_sec := t_truediv (start_time next_segment) 1000 |}.

Definition on_run (f : run_state -> run_state) (st : seg_state) : seg_state :=
  {| run := f (run st);
     segment_boundary_end_sec := segment_boundary_end_sec st;
     segment_boundary_start_sec := segment_boundary_start_sec st |}.

(** Lines 164-176: [while ftime > segment_boundary_end_sec], pulling from the
    generator [gen]; the boolean is [absolute_stop].  ([reiters] only feeds
    a diagnostic and is left out.) *)
Fixpoint seek_segment (ftime : T) (gen : list subtitle_line) (st : seg_state)
    : list subtitle_line * seg_state * bool :=
  if t_gtb ftime (segment_boundary_end_sec st) then
    match gen with
    | [] => ([], st, true)
    | next_segment :: gen' =>
        seek_segment ftime gen' (enter_segment next_segment (run st))
    end
  else (gen, st, false).

(** How an iteration of the decode loop ends: the loop goes on to the next
    frame, is left by [break], or is left by an exception. *)
Inductive flow :=
| Next
| Break
| Raise (e : exn).

(** The body of the decode loop of [SegmentSampler.sample], lines 156-214.
    A [time] that is [None] reaches [ftime > segment_boundary_end_sec] at
    line 164, which raises [TypeError]. *)
Definition segment_process_frame (frame_indx : nat) (fr : av_frame)
    (gen : list subtitle_line) (st : seg_state)
    : list subtitle_line * seg_state * flow :=
  match fr with
  | NoFrame => (gen, st, Next)
  | Untimed _ => (gen, st, Next)
  | NullTime _ => (gen, st, Raise TypeError)
  | Timed ftime i =>
      let '(gen', st', absolute_stop) := seek_segment ftime gen st in
      if absolute_stop then (gen', st', Break)
      else if t_leb ftime (segment_boundary_start_sec st') then (gen', st', Next)
      else (gen', on_run (interval_filter frame_indx ftime i) st', Next)
  end.

(** [for frame_indx, frame in enumerate(container.decode(stream))], with
    [break]. *)
Fixpoint segment_decode_loop (fs : list av_frame) (frame_indx : nat)
    (gen : list subtitle_line) (st : seg_state)
    : list subtitle_line * seg_state * flow :=
  match fs with
  | [] => (gen, st, Next)
  | fr :: fs' =>
      let '(gen', st', fl) := segment_process_frame frame_indx fr gen st in
      match fl with
      | Next => segment_decode_loop fs' (S frame_indx) gen' st'
      | _ => (gen', st', fl)
      end
  end.

(** [SegmentSampler.sample], consumed to completion: the final run state,
    what is left of the generator, and how the run ended.  The first [next]
    (line 146) stands outside any [try]. *)
Definition segment_sample (e : SegmentSampler) (v : video)
    : run_state * list subtitle_line * outcome :=
  let st := start_run (base e) in
  match segment_generator e with
  | [] => (st, [], Raised RuntimeError)
  | next_segment :: gen =>
      let st := enter_segment next_segment st in
      match v with
      | OpenFails err => (run st, gen, Raised err)
      | Opens decode =>
          let s := decode (keyframes_only (cfg (base e))) in
          let '(gen', st', fl) :=
            segment_decode_loop (decoded_frames s) 0 gen st in
          match fl with
          | Break => (flush_buffer (run st'), gen', Done)
          | Raise err => (run st', gen', Raised err)
          | Next =>
              match failure s with
              | Some err => (run st', gen', Raised err)
              | None => (flush_buffer (run st'), gen', Done)
              end
          end
      end
  end.

(** [SegmentSampler.write_queue]: the inherited body, with [self.sample]
    dispatched to the segment-aware [sample]. *)
Definition segment_write_queue (e : SegmentSampler) (v : video)
    (q : list (list FrameObject)) : SegmentSampler * list (list FrameObject) * outcome :=
  let '(st, gen, o) := segment_sample e v in
  let '(q', o') := relay (trace st) o q in
  ({| base := self st; segment_generator := gen |}, q', o').

(** ** The consumer: [Worker.queue_reader] *)

(** [frame.save(os.path.join(output_path, f"{frame_time}.jpg"))] *)
Record saved_file := {
  directory : string;
  stem : pyval;
  image : Img
}.

Inductive reader_status :=
| Polling
| Returned
| Failed (e : exn).

(** Lines 284-295: the [for] over one dequeued batch. *)
Fixpoint read_batch (devnull : bool) (output_path : string)
    (batch : list FrameObject) (disk : list saved_file)
    : list saved_file * reader_status :=
  match batch with
  | [] => (disk, Polling)
  | frame_object :: batch' =>
      if is_end frame_object then (disk, Returned)
      else
        match frame frame_object with
        | Some (PILImage i) =>
            if devnull then read_batch devnull output_path batch' disk
            else
              match metadata frame_object !! "frame_time" with
              | Some ft =>
                  read_batch devnull output_path batch'
                    (disk ++ [{| directory := output_path; stem := ft; image := i |}])
              | None => (disk, Failed KeyError)
              end
        | _ => read_batch devnull output_path batch' disk
        end
  end.

Record reader_state := {
  queue : list (list FrameObject);
  disk : list saved_file;
  status : reader_status
}.

(** One turn of [while True]: an empty queue only sleeps. *)
Definition poll (devnull : bool) (output_path : string)
    (r : reader_state) : reader_state :=
  match status r with
  | Polling =>
      match queue r with
      | [] => r
      | batch :: rest =>
          let '(d, s) := read_batch devnull output_path batch (disk r) in
          {| queue := rest; disk := d; status := s |}
      end
  | _ => r
  end.

(** The producer thread and the consumer interleave: a schedule lists, in
    order, the producer's [q.put]s and the consumer's loop turns. *)
Inductive action :=
| Put (batch : list FrameObject)
| Poll.

Definition act (devnull : bool) (output_path : string)
    (r : reader_state) (a : action) : reader_state :=
  match a with
  | Put batch => {| queue := queue r ++ [batch]; disk := disk r; status := status r |}
  | Poll => poll devnull output_path r
  end.

Definition queue_reader (devnull : bool) (output_path : string)
    (schedule : list action) : reader_state :=
  fold_left (act devnull output_path) schedule
    {| queue := []; disk := []; status := Polling |}.

(** The file the reader writes for a frame object, if it writes one: not in
    discard mode, for a PIL image, under the name its [frame_time] gives. *)
Definition saved_as (devnull : bool) (output_path : string) (fo : FrameObject)
    : option saved_file :=
  if devnull then None
  else
    match frame fo with
    | Some (PILImage i) =>
        match metadata fo !! "frame_time" with
        | Some ft => Some {| directory := output_path; stem := ft; image := i |}
        | None => None
        end
    | _ => None
    end.

(** Section 3: the metadata of a frame object that carries an image has a
    [frame_time]. *)
Definition carries_frame_time (fo : FrameObject) : Prop :=
  forall i, frame fo = Some (PILImage i) -> is_Some (metadata fo !! "frame_time").

(** What links a reader state to the batches put so far: while polling, the
    batches dequeued held no terminal object and what they held is saved;
    once returned, the last batch dequeued held a terminal object and what
    came before it is saved; the reader has not failed. *)
Definition reader_inv (devnull : bool) (output_path : string)
    (arrived : list (list FrameObject)) (r : reader_state) : Prop :=
  match status r with
  | Polling =>
      exists ds, arrived = ds ++ queue r /\
                 Forall (fun fo => is_end fo = false) (concat ds) /\
                 disk r = omap (saved_as devnull output_path) (concat ds)
  | Returned =>
      exists ds pre fo post,
        arrived = ds ++ (pre ++ fo :: post) :: queue r /\
        is_end fo = true /\
        Forall (fun fo => is_end fo = false) (concat ds ++ pre) /\
        disk r = omap (saved_as devnull output_path) (concat ds ++ pre)
  | Failed _ => False
  end.

(** The batches a schedule puts on the queue, in order. *)
Definition puts (schedule : list action) : list (list FrameObject) :=
  omap (fun a => match a with Put b => Some b | Poll => None end) schedule.

(** ** Observations on a run *)

(** The timestamp a frame was submitted with. *)
Definition frame_time_of (m : Metadata) : option T :=
  match m !! "frame_time" with
  | Some (VFloat t) => Some t
  | _ => None
  end.

(** The timestamps of the frames handed to the buffer, in order. *)
Definition submitted_times (tr : list event) : list T :=
  omap (fun e => match e with EvSubmit _ m => frame_time_of m | _ => None end) tr.

(** What the gate returned, call after call, its own flush included. *)
Definition gate_results (tr : list event) : list GatedResult :=
  omap (fun e => match e with
                 | EvGate _ r => Some r
                 | EvGateFlush r => Some r
                 | _ => None
                 end) tr.


(** The segments pulled from the generator, in order. *)
Definition segments_of (tr : list event) : list subtitle_line :=
  omap (fun e => match e with EvSegment s => Some s | _ => None end) tr.

(** A terminal sentinel batch: a sole element, marked [end]. *)
Definition is_sentinel (batch : list FrameObject) : bool :=
  match batch with
  | [fo] => is_end fo
  | _ => false
  end.

(** [statistic st k] is [self.stats[k]] in state [st]. *)
Definition statistic (st : run_state) (k : string) : Z := stat (stats (self st)) k.

(** Modelled from the spec: the contract of the frame buffer.  Section 2
    has it group the frames it is given, so it completes no more groups than
    it received frames.  [held b] bounds the frames it still holds; a frame
    added raises it by at most one, a completed group uses up at least one
    held frame, the final flush completes no more groups than frames are
    held, and [clear] empties it. *)
Class Conserving := {
  held : B -> nat;
  held_clear : forall b, held (buffer_clear b) = 0%nat;
  held_add : forall b i m,
    (held (fst (buffer_add b i m))
     + match snd (buffer_add b i m) with Some _ => 1 | None => 0 end
     <= S (held b))%nat;
  held_final_flush : forall b,
    (length (omap id (fst (buffer_final_flush b))) <= held b)%nat
}.


(** The batches the gate results [rs] give rise to: the non-empty [frames],
    in order. *)
Definition gated_batches (rs : list GatedResult) : list (list FrameObject) :=
  omap (fun r => match frames r with [] => None | _ :: _ => Some (frames r) end) rs.



(** The frames submitted so far are spaced by the filter's own test, and
    [prev_time] is the timestamp of the one submitted last. *)
Definition spaced (st : run_state) : Prop :=
  consecutive
    (fun a b => t_ltb (t_sub b a) (min_frame_interval_sec (cfg (self st))) = false)
    (submitted_times (trace st)) /\
  forall a, last (submitted_times (trace st)) = Some a -> prev_time st = a.


(** Before the flush ends, the batches yielded are those the gate released. *)
Definition yields_gated (st : run_state) : Prop :=
  yields (trace st) = gated_batches (gate_results (trace st)).

(** The tracker's two tests place [t] inside the segment [s]: [t] is not
    after its end, and [t <= start] fails. *)
Definition inside_b (s : subtitle_line) (t : T) : bool :=
  negb (t_gtb t (t_truediv (end_time s) 1000))
  && negb (t_leb t (t_truediv (start_time s) 1000)).

(** The segment current after the trace [tr], [cur] being current before. *)
Definition current_or (cur : option subtitle_line) (tr : list event)
    : option subtitle_line :=
  match last (segments_of tr) with
  | Some s => Some s
  | None => cur
  end.

(** Reading a trace from the left with [cur] the current segment: every
    frame submitted lies inside the segment current when it is submitted. *)
Fixpoint contained_from (cur : option subtitle_line) (tr : list event) : Prop :=
  match tr with
  | [] => True
  | EvSegment s :: tr' => contained_from (Some s) tr'
  | EvSubmit _ m :: tr' =>
      (exists t s, frame_time_of m = Some t /\ cur = Some s /\ inside_b s t = true)
      /\ contained_from cur tr'
  | _ :: tr' => contained_from cur tr'
  end.

(** The invariant of the tracker: the segments pulled so far and those left
    in the generator make up the supplied sequence [segs]; the boundaries
    are those of the segment pulled last; the trace is contained. *)
Definition tracking (segs gen : list subtitle_line) (st : seg_state) : Prop :=
  segments_of (trace (run st)) ++ gen = segs /\
  (exists s, last (segments_of (trace (run st))) = Some s /\
             segment_boundary_end_sec st = t_truediv (end_time s) 1000 /\
             segment_boundary_start_sec st = t_truediv (start_time s) 1000) /\
  contained_from None (trace (run st)).


(** No frame of the decode has a [time] that is [None]. *)
Definition times_readable (fs : list av_frame) : Prop :=
  Forall (fun fr => forall i, fr <> NullTime i) fs.


(** The timestamps the decode loop reads, in order: those of the frames
    with a timestamp, up to the first frame whose [time] is [None], at
    which the loop is left. *)
Fixpoint timestamps (fs : list av_frame) : list T :=
  match fs with
  | [] => []
  | NullTime _ :: _ => []
  | Timed t _ :: fs' => t :: timestamps fs'
  | _ :: fs' => timestamps fs'
  end.


(** The interval filter on its own: which of the timestamps [ts] pass,
    starting from [prev]. *)
Fixpoint accepted (min_interval prev : T) (ts : list T) : list T :=
  match ts with
  | [] => []
  | t :: ts' =>
      if t_ltb (t_sub t prev) min_interval then accepted min_interval prev ts'
      else t :: accepted min_interval t ts'
  end.

(** ** The worker *)

(** [processor_cls]: the engine class the worker was given. *)
Inductive Processor :=
| BaseProcessor (e : VideoSampler)
| SegmentProcessor (e : SegmentSampler).

(** The engine of a processor, as [VideoSampler.__init__] set it up. *)
Definition processor_engine (p : Processor) : VideoSampler :=
  match p with
  | BaseProcessor e => e
  | SegmentProcessor e => base e
  end.

(** [self.processor.stats] *)
Definition processor_stats (p : Processor) : Counter :=
  match p with
  | BaseProcessor e => stats e
  | SegmentProcessor e => stats (base e)
  end.

(** [self.processor.sample(video_path)], consumed to completion, with the
    method the processor's class gives. *)
Definition processor_sample (p : Processor) (v : video) : run_state * outcome :=
  match p with
  | BaseProcessor e => sample e v
  | SegmentProcessor e => (fst (fst (segment_sample e v)), snd (segment_sample e v))
  end.

(** [self.processor.write_queue(video_path, q)] on a thread of its own: the
    processor afterwards, the batches the thread puts, in order, and how
    the thread ends. *)
Definition processor_write_queue (p : Processor) (v : video)
    : Processor * list (list FrameObject) * outcome :=
  match p with
  | BaseProcessor e =>
      let '(e', puts, o) := write_queue e v [] in (BaseProcessor e', puts, o)
  | SegmentProcessor e =>
      let '(e', puts, o) := segment_write_queue e v [] in (SegmentProcessor e', puts, o)
  end.

Record Worker := {
  worker_cfg : SamplerConfig;
  processor : Processor;
  (** [self.q], created once in [__init__] *)
  worker_q : list (list FrameObject);
  worker_devnull : bool
}.

(** [Worker.__init__]; [make] stands for [processor_cls] applied to the
    extra constructor arguments. *)
Definition new_worker (c : SamplerConfig) (discard : bool)
    (make : SamplerConfig -> Processor) : Worker :=
  {| worker_cfg := c; processor := make c; worker_q := []; worker_devnull := discard |}.

(** Whose turn it is: the producer thread's or the consumer's. *)
Inductive turn :=
| ProducerTurn
| ConsumerTurn.

(** The producer thread puts its batches one per turn and idles once it has
    ended; a consumer turn is one turn of the reader's loop. *)
Fixpoint interleave (pending : list (list FrameObject)) (turns : list turn)
    : list action :=
  match turns with
  | [] => []
  | ConsumerTurn :: turns' => Poll :: interleave pending turns'
  | ProducerTurn :: turns' =>
      match pending with
      | [] => interleave [] turns'
      | batch :: pending' => Put batch :: interleave pending' turns'
      end
  end.

(** How many turns of a schedule are the producer's. *)
Fixpoint producer_turns (turns : list turn) : nat :=
  match turns with
  | [] => 0
  | ProducerTurn :: turns' => S (producer_turns turns')
  | ConsumerTurn :: turns' => producer_turns turns'
  end.

(** How a launch stands at the end of a schedule. *)
Inductive launched :=
| LaunchRefused
| LaunchRaised (e : exn) (files : list saved_file)
| LaunchRunning (r : reader_state)
| LaunchReturned (w : Worker) (directories : gset string) (files : list saved_file).

(** The reader of a launch: [queue_reader] on the worker's own queue. *)
Definition launch_reader (w : Worker) (output_path : string)
    (schedule : list action) : reader_state :=
  fold_left (act (worker_devnull w) output_path) schedule
    {| queue := worker_q w; disk := []; status := Polling |}.

(** [Worker.launch], lines 250-270, under a schedule of the two threads.  It
    refuses with [ValueError] when an output path comes with discard mode;
    it makes the output directory; the reader's exception is the launch's;
    it returns once the reader has returned and the producer thread has
    ended ([join]). *)
Definition launch (w : Worker) (v : video) (output_path : string)
    (directories : gset string) (turns : list turn) : launched :=
  if negb (String.eqb output_path "") && worker_devnull w then LaunchRefused
  else
    let directories :=
      if String.eqb output_path "" then directories
      else {[output_path]} ∪ directories in
    let '(p', pending, _) := processor_write_queue (processor w) v in
    let r := launch_reader w output_path (interleave pending turns) in
    match status r with
    | Failed err => LaunchRaised err (disk r)
    | Polling => LaunchRunning r
    | Returned =>
        if (length pending <=? producer_turns turns)%nat
        then LaunchReturned
               {| worker_cfg := worker_cfg w; processor := p';
                  worker_q := queue r; worker_devnull := worker_devnull w |}
               directories (disk r)
        else LaunchRunning r
    end.

(** ** Further observations *)

(** The frames handed to the buffer, each with its metadata, in order. *)
Definition submissions (tr : list event) : list (Img * Metadata) :=
  omap (fun e => match e with EvSubmit i m => Some (i, m) | _ => None end) tr.

(** What submitting the frame at decode position [n] of [fs] hands to the
    buffer, if that frame has a timestamp. *)
Definition submission_at (fs : list av_frame) (n : nat) : option (Img * Metadata) :=
  match fs !! n with
  | Some (Timed ftime i) => Some (i, frame_meta ftime n)
  | _ => None
  end.

(** The groups the gate was invoked on, in order. *)
Definition gated_groups (tr : list event) : list Group :=
  omap (fun e => match e with EvGate res _ => Some res | _ => None end) tr.

(** A trace without the segment pulls. *)
Definition engine_events (tr : list event) : list event :=
  omap (fun e => match e with EvSegment _ => None | _ => Some e end) tr.

(** [decoded] counts the submissions and [produced] the gate invocations on
    completed groups. *)
Definition counting (st : run_state) : Prop :=
  statistic st "decoded" = Z.of_nat (length (submissions (trace st))) /\
  statistic st "produced" = Z.of_nat (length (gated_groups (trace st))).

(** The state [st] with its trace seen through [f]. *)
Definition retrace (f : list event -> list event) (st : run_state) : run_state :=
  {| self := self st; prev_time := prev_time st; trace := f (trace st) |}.

(** The state [st] with no event recorded yet. *)
Definition clear_trace (st : run_state) : run_state :=
  retrace (fun _ => []) st.

(** [f] sees through every event the engine records apart from the segment
    pulls. *)
Definition transparent (f : list event -> list event) : Prop :=
  forall tr ev, (forall s, ev <> EvSegment s) -> f (tr ++ [ev]) = f tr ++ [ev].

(** The tracker's seek over the boundaries alone. *)
Fixpoint seek_bounds (ftime : T) (gen : list subtitle_line) (end_sec start_sec : T)
    : list subtitle_line * T * T * bool :=
  if t_gtb ftime end_sec then
    match gen with
    | [] => ([], end_sec, start_sec, true)
    | next_segment :: gen' =>
        seek_bounds ftime gen' (t_truediv (end_time next_segment) 1000)
          (t_truediv (start_time next_segment) 1000)
    end
  else (gen, end_sec, start_sec, false).

(** The decoded frames as the segment-aware engine lets them through: a
    frame not yet in its segment counts as no frame, and the stream ends
    with the frame that finds the segments exhausted, or with the first
    frame whose [time] is [None].  The boolean tells whether it ended by
    exhaustion. *)
Fixpoint segment_view (fs : list av_frame) (gen : list subtitle_line)
    (end_sec start_sec : T) : list av_frame * bool :=
  match fs with
  | [] => ([], false)
  | NullTime i :: _ => ([NullTime i], false)
  | Timed ftime i :: fs' =>
      let '(gen', end_sec', start_sec', stop) :=
        seek_bounds ftime gen end_sec start_sec in
      if stop then ([], true)
      else
        let '(rest, stopped) := segment_view fs' gen' end_sec' start_sec' in
        ((if t_leb ftime start_sec' then NoFrame else Timed ftime i) :: rest, stopped)
  | fr :: fs' =>
      let '(rest, stopped) := segment_view fs' gen end_sec start_sec in
      (fr :: rest, stopped)
  end.

(** The video as the segment-aware engine lets it through once it has pulled
    its first segment [s], with [gen] left in the generator: a decode error
    is met only if the segments outlast the frames. *)
Definition segment_video (s : subtitle_line) (gen : list subtitle_line)
    (decode : bool -> decode_stream) : video :=
  Opens (fun k =>
    let view := segment_view (decoded_frames (decode k)) gen
                  (t_truediv (end_time s) 1000) (t_truediv (start_time s) 1000) in
    {| decoded_frames := fst view;
       failure := if snd view then None else failure (decode k) |}).

(** No frame object of the batch is marked [end]. *)
Definition unmarked (batch : list FrameObject) : Prop :=
  Forall (fun fo => is_end fo = false) batch.

End Sampler.

(** ** Sample collaborators

    Small buffers and gates in the style of the package's own, used to run
    the engine on concrete inputs.  Images are numbered; a group is one
    frame with its metadata. *)

Module Collaborators.
Abbreviation group T := (nat * gmap string (@pyval T))%type.

Section Instances.

Context {T : Type} `{TimeOps T}.

(** A buffer that holds nothing: every frame comes straight back, and the
    final flush yields one falsy result. *)
#[export] Instance PassThroughBuffer : @FrameBuffer T nat (group T) unit :=
  {| buffer_init := tt;
     buffer_add := fun _ i m => (tt, Some (i, m));
     buffer_final_flush := fun _ => ([None], tt);
     buffer_clear := fun _ => tt |}.

(** A sliding window of two frames: the oldest leaves when a third would
    enter; the final flush drains the window. *)
Definition window_add (w : list (group T)) (i : nat) (m : gmap string (@pyval T))
    : list (group T) * option (group T) :=
  match w ++ [(i, m)] with
  | g :: w' => if (2 <=? length w')%nat then (w', Some g) else (g :: w', None)
  | [] => ([], None)
  end.

#[export] Instance WindowBuffer : @FrameBuffer T nat (group T) (list (group T)) :=
  {| buffer_init := [];
     buffer_add := window_add;
     buffer_final_flush := fun w => (map Some w, []);
     buffer_clear := fun _ => [] |}.

Definition as_frame_object (g : group T) : @FrameObject T nat :=
  {| frame := Some (PILImage (fst g)); metadata := snd g |}.

(** A gate that accepts everything. *)
#[export] Instance PassGate : @Gate T nat (group T) unit :=
  {| gate_init := tt;
     gate_call := fun _ g => (tt, {| frames := [as_frame_object g]; N := 0 |});
     gate_flush := fun _ => (tt, {| frames := []; N := 0 |}) |}.

(** A gate that holds one frame back: each call releases the frame held so
    far and discards every frame whose image number is odd; [flush]
    releases what is held. *)
Definition holding_call (held : option (group T)) (g : group T)
    : option (group T) * @GatedResult T nat :=
  if Nat.odd (fst g)
  then (held, {| frames := []; N := 1 |})
  else (Some g,
        {| frames := match held with Some h => [as_frame_object h] | None => [] end;
           N := 0 |}).

#[export] Instance HoldingGate : @Gate T nat (group T) (option (group T)) :=
  {| gate_init := None;
     gate_call := holding_call;
     gate_flush := fun held =>
       (None,
        {| frames := match held with Some h => [as_frame_object h] | None => [] end;
           N := 0 |}) |}.

(** A gate that lets each image through once: it remembers the images it
    has seen and discards one it sees again.  It holds no frame back, so
    [flush] releases nothing; it leaves the memory as it is. *)
Definition memory_call (seen : list nat) (g : group T)
    : list nat * @GatedResult T nat :=
  if existsb (Nat.eqb (fst g)) seen
  then (seen, {| frames := []; N := 1 |})
  else (fst g :: seen, {| frames := [as_frame_object g]; N := 0 |}).

#[export] Instance MemoryGate : @Gate T nat (group T) (list nat) | 100 :=
  {| gate_init := [];
     gate_call := memory_call;
     gate_flush := fun seen => (seen, {| frames := []; N := 0 |}) |}.

(** Frames [0, 1, ...] of a video, with the given timestamps. *)
Definition timed_frames (ts : list T) : list (@av_frame T nat) :=
  imap (fun k t => Timed t k) ts.

(** A video that opens and decodes the given frames whatever the
    [skip_frame] hint. *)
Definition plain_video (fs : list (@av_frame T nat)) : @video T nat :=
  Opens (fun _ => {| decoded_frames := fs; failure := None |}).

Definition config (min_interval : T) : @SamplerConfig T :=
  {| min_frame_interval_sec := min_interval;
     keyframes_only := false;
     debug := false;
     print_stats := false;
     queue_wait := min_interval |}.

(** The window buffer groups the frames it is given. *)
#[export, refine] Instance window_conserving
    : @Conserving T nat (group T) (list (group T)) WindowBuffer :=
  {| held := length |}.
Proof.
  - done.
  - intros w i m. simpl. unfold window_add.
    destruct (w ++ [(i, m)]) as [|g w'] eqn:Hw.
    { by destruct w. }
    assert (length w = length w') as ->.
    { apply (f_equal length) in Hw. rewrite length_app in Hw. simpl in Hw. lia. }
    destruct (2 <=? length w')%nat; simpl; lia.
  - intros w. simpl.
    assert (omap id (map Some w) = w) as ->; [|done].
    induction w as [|g w IH]; [done|]. cbn. by f_equal.
Qed.

(** An engine with the window buffer and the holding gate, and the same
    with a segment generator. *)
Definition engine (min_interval : T)
    : @VideoSampler T (list (group T)) (option (group T)) :=
  new_sampler (config min_interval).

Definition segment_engine (min_interval : T) (segments : list subtitle_line)
    : @SegmentSampler T (list (group T)) (option (group T)) :=
  new_segment_sampler (config min_interval) segments.

(** An engine with the pass-through buffer and the gate that accepts
    everything. *)
Definition plain_engine (min_interval : T) : @VideoSampler T unit unit :=
  new_sampler (config min_interval).


Definition cue (start_ms end_ms : Z) : subtitle_line :=
  {| start_time := start_ms; end_time := end_ms; content := "" |}.

(** The frame object the gates make of frame [i] submitted at time [t]. *)
Definition frame_object_at (t : T) (i : nat) : @FrameObject T nat :=
  as_frame_object (i, frame_meta t i).

End Instances.

#[local] Set Warnings "-inexact-float".

(** The scenario of section 8: five frames. *)
Definition scenario_times : list float := [0; 0.3; 1.1; 1.2; 2.5]%float.
Definition scenario_video : @video float nat := plain_video (timed_frames scenario_times).

Definition scenario_decode (_ : bool) : @decode_stream float nat :=
  {| decoded_frames := timed_frames scenario_times; failure := None |}.

(** A video whose only frame is at 0.0. *)
Definition lone_frame_decode (_ : bool) : @decode_stream float nat :=
  {| decoded_frames := timed_frames [0%float]; failure := None |}.

(** Two cues with a gap, and frames before, in and after the gap. *)
Definition gap_cues : list subtitle_line := [cue 0 2000; cue 5000 7000].
Definition gap_video : @video float nat := plain_video (timed_frames [0.5; 3; 6]%float).

(** One cue, and a frame exactly at its start. *)
Definition lone_cue : list subtitle_line := [cue 1000 2000].
Definition start_tie_video : @video float nat := plain_video (timed_frames [1%float]).

(** The tracker inside the lone cue, before any frame. *)
Definition in_lone_cue
    : @seg_state float nat (group float) (list (group float)) (option (group float)) :=
  enter_segment (cue 1000 2000) (start_run (engine 1%float)).

(** A cue whose end in seconds, 1100 / 1000, is not a binary64 value: the
    quotient rounds to the binary64 value written [1.1], which lies above
    11/10.  The tracker inside it, before any frame. *)
Definition in_rounded_cue
    : @seg_state float nat (group float) (list (group float)) (option (group float)) :=
  enter_segment (cue 0 1100) (start_run (engine 1%float)).

(** Two frames whose timestamps, as binary64 values, lie less than 1 apart
    by a rounding error, while their binary64 difference is 1. *)
Definition rounding_video : @video float nat :=
  plain_video (timed_frames [0.2; 1.2]%float).

(** A video in which the second frame has no presentation timestamp: its
    [time] is [None]. *)
Definition null_time_video : @video float nat :=
  plain_video [Timed 0%float 0%nat; NullTime 1%nat; Timed 1.5%float 2%nat].

(** A producer that puts two batches, the second holding the sentinel
    object between two frames, and a consumer that polls three times. *)
Definition relay_schedule : list (@action float nat) :=
  [Put [frame_object_at 0.5%float 0]; Poll;
   Put [frame_object_at 1.5%float 1; PROCESSING_DONE; frame_object_at 2.5%float 2];
   Poll; Poll].

(** The same puts as [relay_schedule], with the reader starting late. *)
Definition late_schedule : list (@action float nat) :=
  [Put [frame_object_at 0.5%float 0];
   Put [frame_object_at 1.5%float 1; PROCESSING_DONE; frame_object_at 2.5%float 2];
   Poll; Poll].

(** An image whose metadata lacks the [frame_time] key, and a batch that
    holds it between two well-formed frames. *)
Definition nameless_object : @FrameObject float nat :=
  {| frame := Some (PILImage 7%nat); metadata := ∅ |}.
Definition nameless_schedule : list (@action float nat) :=
  [Put [frame_object_at 0.5%float 0; nameless_object; frame_object_at 1.5%float 1]].

(** The decoded frames of the scenario, whatever the [skip_frame] hint. *)
Definition scenario_frames (_ : bool) : list (@av_frame float nat) :=
  timed_frames scenario_times.

(** The frames a run with interval 1 keeps of the scenario, as a video. *)
Definition kept_decode (_ : bool) : @decode_stream float nat :=
  {| decoded_frames := timed_frames [0; 1.1; 2.5]%float; failure := None |}.

(** A worker on the base engine, with the window buffer and the holding
    gate. *)
Definition worker (discard : bool)
    : @Worker float nat (list (group float)) (option (group float)) :=
  new_worker (config 1%float) discard (fun c => BaseProcessor (new_sampler c)).

(** The producer puts its batches while the reader takes a turn now and
    then. *)
Definition busy_turns : list turn :=
  [ProducerTurn; ConsumerTurn; ProducerTurn; ProducerTurn; ConsumerTurn;
   ProducerTurn; ProducerTurn].

End Collaborators.

(** * Properties *)

(** ** The counter *)

Lemma stat_empty k : stat ∅ k = 0%Z.
Proof. unfold stat. by rewrite lookup_empty. Qed.

Lemma stat_add_eq k n c : stat (stat_add k n c) k = (stat c k + n)%Z.
Proof. unfold stat at 1, stat_add. by rewrite lookup_insert_eq. Qed.

Lemma stat_add_ne k k' n c : k ≠ k' -> stat (stat_add k n c) k' = stat c k'.
Proof. intros Hne. unfold stat, stat_add. by rewrite lookup_insert_ne. Qed.

Lemma consecutive_nil {A} (P : A -> A -> Prop) : consecutive P [].
Proof. intros i a b Ha. by rewrite lookup_nil in Ha. Qed.

Lemma consecutive_snoc {A} (P : A -> A -> Prop) l x :
  consecutive P l -> (forall a, last l = Some a -> P a x) ->
  consecutive P (l ++ [x]).
Proof.
  intros Hl Hx i a b Ha Hb.
  destruct (decide (S i < length l)) as [Hlt | Hge].
  - rewrite lookup_app_l in Ha by lia. rewrite lookup_app_l in Hb by lia. eauto.
  - assert (S i = length l) as Hi.
    { apply lookup_lt_Some in Hb. rewrite length_app in Hb. simpl in Hb. lia. }
    rewrite lookup_app_l in Ha by lia.
    rewrite Hi, lookup_app_r in Hb by lia.
    rewrite Nat.sub_diag in Hb. simpl in Hb. injection Hb as <-.
    apply Hx. rewrite last_lookup. rewrite <- Hi. simpl. done.
Qed.

Ltac unfold_setters :=
  unfold emit, set_stats, set_buffer, set_gate, set_prev_time; simpl.

Section Engine.

Context {T : Type} `{TimeOps T} {Img Group B G : Type}.
Context `{!@FrameBuffer T Img Group B} `{!@Gate T Img Group G}.

Implicit Types st : @run_state T Img Group B G.
Implicit Types e : @VideoSampler T B G.
Implicit Types v : @video T Img.

Lemma frame_time_of_frame_meta (t : T) n : frame_time_of (frame_meta t n) = Some t.
Proof.
  unfold frame_time_of, frame_meta.
  rewrite lookup_insert_ne by done. by rewrite lookup_singleton_eq.
Qed.

Lemma submitted_times_app (tr1 tr2 : list (@event T Img Group)) :
  submitted_times (tr1 ++ tr2) = submitted_times tr1 ++ submitted_times tr2.
Proof. apply omap_app. Qed.

(** *** What each step does to the state *)

Lemma run_gate_eq res st :
  let r := snd (gate_call (gate (self st)) res) in
  run_gate res st =
  {| self := {| cfg := cfg (self st);
                frame_buffer := frame_buffer (self st);
                gate := fst (gate_call (gate (self st)) res);
                stats := stat_add "gated" (N r) (stat_add "produced" 1 (stats (self st))) |};
     prev_time := prev_time st;
     trace := trace st ++ EvGate res r ::
              match frames r with [] => [] | _ :: _ => [EvYield (frames r)] end |}.
Proof.
  unfold run_gate. destruct (gate_call _ _) as [g' r]. simpl.
  unfold yield_frames. destruct (frames r); unfold_setters; [done|].
  by rewrite <- app_assoc.
Qed.

Lemma submit_eq n t i st :
  let b := buffer_add (frame_buffer (self st)) i (frame_meta t n) in
  let st' := {| self := {| cfg := cfg (self st);
                           frame_buffer := fst b;
                           gate := gate (self st);
                           stats := stat_add "decoded" 1 (stats (self st)) |};
                prev_time := prev_time st;
                trace := trace st ++ [EvSubmit i (frame_meta t n)] |} in
  submit n t i st = match snd b with Some g => run_gate g st' | None => st' end.
Proof. unfold submit. unfold_setters. by destruct (buffer_add _ _ _) as [b' [g|]]. Qed.

Lemma gate_results_app (tr1 tr2 : list (@event T Img Group)) :
  gate_results (tr1 ++ tr2) = gate_results tr1 ++ gate_results tr2.
Proof. apply omap_app. Qed.

Lemma yields_app (tr1 tr2 : list (@event T Img Group)) :
  yields (tr1 ++ tr2) = yields tr1 ++ yields tr2.
Proof. apply omap_app. Qed.

Lemma segments_of_app (tr1 tr2 : list (@event T Img Group)) :
  segments_of (tr1 ++ tr2) = segments_of tr1 ++ segments_of tr2.
Proof. apply omap_app. Qed.


Lemma gate_results_yield (r : @GatedResult T Img) :
  gate_results (match frames r with
                | [] => []
                | _ :: _ => [EvYield (Group := Group) (frames r)]
                end) = [].
Proof. by destruct (frames r). Qed.

Lemma submitted_times_yield (r : @GatedResult T Img) :
  submitted_times (match frames r with
                   | [] => []
                   | _ :: _ => [EvYield (Group := Group) (frames r)]
                   end) = [].
Proof. by destruct (frames r). Qed.

Lemma segments_of_yield (r : @GatedResult T Img) :
  segments_of (match frames r with
               | [] => []
               | _ :: _ => [EvYield (Group := Group) (frames r)]
               end) = [].
Proof. by destruct (frames r). Qed.

(** The gate step leaves the filter's state and the buffer alone. *)
Lemma run_gate_cfg res st : cfg (self (run_gate res st)) = cfg (self st).
Proof. by rewrite run_gate_eq. Qed.

Lemma run_gate_prev_time res st : prev_time (run_gate res st) = prev_time st.
Proof. by rewrite run_gate_eq. Qed.


Lemma run_gate_submitted res st :
  submitted_times (trace (run_gate res st)) = submitted_times (trace st).
Proof.
  rewrite run_gate_eq. simpl. rewrite submitted_times_app. simpl.
  by rewrite submitted_times_yield, app_nil_r.
Qed.

Lemma run_gate_segments res st :
  segments_of (trace (run_gate res st)) = segments_of (trace st).
Proof.
  rewrite run_gate_eq. simpl. rewrite segments_of_app. simpl.
  by rewrite segments_of_yield, app_nil_r.
Qed.


Lemma run_gate_stat res st k :
  stat (stats (self (run_gate res st))) k =
  (stat (stats (self st)) k
   + (if decide (k = "produced") then 1 else 0)
   + (if decide (k = "gated") then N (snd (gate_call (gate (self st)) res)) else 0))%Z.
Proof.
  rewrite run_gate_eq. simpl.
  destruct (decide (k = "gated")) as [->|Hg].
  - rewrite stat_add_eq, stat_add_ne by done. rewrite decide_False by done. lia.
  - rewrite stat_add_ne by done.
    destruct (decide (k = "produced")) as [->|Hp].
    + rewrite stat_add_eq. lia.
    + rewrite stat_add_ne by done. lia.
Qed.

(** Submitting a frame. *)
Lemma submit_cfg n t i st : cfg (self (submit n t i st)) = cfg (self st).
Proof.
  rewrite submit_eq. destruct (snd (buffer_add _ _ _)); [|done].
  by rewrite run_gate_cfg.
Qed.

Lemma submit_prev_time n t i st : prev_time (submit n t i st) = prev_time st.
Proof.
  rewrite submit_eq. destruct (snd (buffer_add _ _ _)); [|done].
  by rewrite run_gate_prev_time.
Qed.

Lemma submit_submitted n t i st :
  submitted_times (trace (submit n t i st)) = submitted_times (trace st) ++ [t].
Proof.
  rewrite submit_eq. destruct (snd (buffer_add _ _ _));
    rewrite ?run_gate_submitted; simpl;
    rewrite submitted_times_app; simpl; by rewrite frame_time_of_frame_meta.
Qed.

Lemma submit_segments n t i st :
  segments_of (trace (submit n t i st)) = segments_of (trace st).
Proof.
  rewrite submit_eq. destruct (snd (buffer_add _ _ _));
    rewrite ?run_gate_segments; simpl;
    rewrite segments_of_app; simpl; by rewrite app_nil_r.
Qed.

Lemma submit_stat n t i st k :
  k ≠ "produced" -> k ≠ "gated" ->
  stat (stats (self (submit n t i st))) k =
  (stat (stats (self st)) k + if decide (k = "decoded") then 1 else 0)%Z.
Proof.
  intros Hp Hg. rewrite submit_eq.
  assert (stat (stat_add "decoded" 1 (stats (self st))) k =
          (stat (stats (self st)) k + if decide (k = "decoded") then 1 else 0)%Z) as Hd.
  { destruct (decide (k = "decoded")) as [->|Hd].
    - by rewrite stat_add_eq.
    - rewrite stat_add_ne by done. lia. }
  destruct (snd (buffer_add _ _ _)); [|exact Hd].
  rewrite run_gate_stat. simpl. rewrite Hd.
  rewrite (decide_False (P := k = "produced")) by done.
  rewrite (decide_False (P := k = "gated")) by done. lia.
Qed.

(** The two branches of the interval filter. *)
Lemma interval_filter_reject n t i st :
  t_ltb (t_sub t (prev_time st)) (min_frame_interval_sec (cfg (self st))) = true ->
  interval_filter n t i st = set_stats (stat_add "total" 1) st.
Proof. unfold interval_filter. simpl. by intros ->. Qed.

Lemma interval_filter_accept n t i st :
  t_ltb (t_sub t (prev_time st)) (min_frame_interval_sec (cfg (self st))) = false ->
  interval_filter n t i st =
  submit n t i (set_prev_time t (set_stats (stat_add "total" 1) st)).
Proof. unfold interval_filter. simpl. by intros ->. Qed.

Lemma interval_filter_cfg n t i st :
  cfg (self (interval_filter n t i st)) = cfg (self st).
Proof.
  destruct (t_ltb (t_sub t (prev_time st)) (min_frame_interval_sec (cfg (self st))))
    eqn:Hlt.
  - by rewrite interval_filter_reject.
  - rewrite interval_filter_accept by done. by rewrite submit_cfg.
Qed.

Lemma interval_filter_segments n t i st :
  segments_of (trace (interval_filter n t i st)) = segments_of (trace st).
Proof.
  destruct (t_ltb (t_sub t (prev_time st)) (min_frame_interval_sec (cfg (self st))))
    eqn:Hlt.
  - by rewrite interval_filter_reject.
  - rewrite interval_filter_accept by done. by rewrite submit_segments.
Qed.

Lemma process_frame_cfg n fr st : cfg (self (fst (process_frame n fr st))) = cfg (self st).
Proof. destruct fr; simpl; [done..|]. apply interval_filter_cfg. Qed.

Lemma decode_loop_cons fr fs n st :
  decode_loop (fr :: fs) n st =
  match fr with
  | NullTime _ => (st, Some TypeError)
  | _ => decode_loop fs (S n) (fst (process_frame n fr st))
  end.
Proof. by destruct fr. Qed.

(** The loop is left by an exception exactly at a frame whose [time] is
    [None]. *)
Lemma decode_loop_raises fs n st :
  snd (decode_loop fs n st) = None \/ snd (decode_loop fs n st) = Some TypeError.
Proof.
  revert n st. induction fs as [|fr fs IH]; intros n st; [by left|].
  rewrite decode_loop_cons. destruct fr; try apply IH. by right.
Qed.

Lemma decode_loop_readable fs n st :
  times_readable fs -> snd (decode_loop fs n st) = None.
Proof.
  intros Hfs. revert n st. induction Hfs as [|fr fs Hfr Hfs IH]; intros n st; [done|].
  rewrite decode_loop_cons. destruct fr; try apply IH. by destruct (Hfr i).
Qed.

(** An invariant of every frame step is an invariant of the decode loop. *)
Lemma decode_loop_inv (P : run_state -> Prop) fs :
  (forall n fr st, P st -> P (fst (process_frame n fr st))) ->
  forall n st, P st -> P (fst (decode_loop fs n st)).
Proof.
  intros Hstep. induction fs as [|fr fs IH]; intros n st HP; [done|].
  rewrite decode_loop_cons. specialize (Hstep n fr st HP).
  destruct fr; try (by apply IH). done.
Qed.

Lemma flush_groups_inv (P : run_state -> Prop) rs :
  (forall res st, P st -> P (run_gate res st)) ->
  forall st, P st -> P (flush_groups rs st).
Proof.
  intros Hstep. induction rs as [|[res|] rs IH]; intros st HP; simpl; [done|..].
  - apply IH, Hstep, HP.
  - by apply IH.
Qed.

(** The decode loop submits exactly the timestamps the filter accepts, and
    counts every timestamped frame in [total] and every submitted one in
    [decoded]. *)
Lemma decode_loop_submitted fs n st :
  submitted_times (trace (fst (decode_loop fs n st))) =
  submitted_times (trace st) ++
  accepted (min_frame_interval_sec (cfg (self st))) (prev_time st) (timestamps fs).
Proof.
  revert n st. induction fs as [|fr fs IH]; intros n st.
  { simpl. by rewrite app_nil_r. }
  rewrite decode_loop_cons.
  destruct fr as [|i|i|t i]; rewrite ?IH; simpl; [done|done|by rewrite app_nil_r|].
  rewrite interval_filter_cfg.
  destruct (t_ltb (t_sub t (prev_time st)) (min_frame_interval_sec (cfg (self st))))
    eqn:Hlt.
  - by rewrite interval_filter_reject.
  - rewrite interval_filter_accept by done.
    rewrite submit_submitted, submit_prev_time. simpl. by rewrite <- app_assoc.
Qed.

Lemma decode_loop_stat fs n st k :
  k ≠ "produced" -> k ≠ "gated" ->
  stat (stats (self (fst (decode_loop fs n st)))) k =
  (stat (stats (self st)) k
   + (if decide (k = "total") then Z.of_nat (length (timestamps fs)) else 0)
   + (if decide (k = "decoded")
      then Z.of_nat (length (accepted (min_frame_interval_sec (cfg (self st)))
                               (prev_time st) (timestamps fs)))
      else 0))%Z.
Proof.
  intros Hp Hg. revert n st. induction fs as [|fr fs IH]; intros n st.
  { simpl. repeat case_decide; lia. }
  rewrite decode_loop_cons.
  destruct fr as [|i|i|t i]; rewrite ?IH; simpl;
    [done|done|repeat case_decide; lia|].
  rewrite interval_filter_cfg.
  destruct (t_ltb (t_sub t (prev_time st)) (min_frame_interval_sec (cfg (self st))))
    eqn:Hlt.
  - rewrite interval_filter_reject by done. simpl.
    destruct (decide (k = "total")) as [->|Ht].
    + rewrite stat_add_eq. rewrite decide_False by done. lia.
    + rewrite stat_add_ne by done. case_decide; lia.
  - rewrite interval_filter_accept by done.
    rewrite submit_stat, submit_prev_time by done. simpl.
    destruct (decide (k = "total")) as [->|Ht].
    + rewrite stat_add_eq. rewrite !decide_False by done. lia.
    + rewrite stat_add_ne by done. case_decide; lia.
Qed.

(** *** The flush *)


Lemma flush_groups_submitted rs st :
  submitted_times (trace (flush_groups rs st)) = submitted_times (trace st).
Proof.
  apply (flush_groups_inv
           (fun st' => submitted_times (trace st') = submitted_times (trace st)));
    [|done].
  intros res st' <-. apply run_gate_submitted.
Qed.

Lemma flush_groups_segments rs st :
  segments_of (trace (flush_groups rs st)) = segments_of (trace st).
Proof.
  apply (flush_groups_inv
           (fun st' => segments_of (trace st') = segments_of (trace st)));
    [|done].
  intros res st' <-. apply run_gate_segments.
Qed.

Lemma flush_groups_stat rs st k :
  k ≠ "gated" ->
  statistic (flush_groups rs st) k =
  (statistic st k
   + if decide (k = "produced") then Z.of_nat (length (omap id rs)) else 0)%Z.
Proof.
  intros Hg. unfold statistic. revert st.
  induction rs as [|[res|] rs IH]; intros st; cbn [flush_groups].
  - simpl. case_decide; lia.
  - rewrite IH, run_gate_stat. rewrite (decide_False (P := k = "gated")) by done.
    change (omap id (Some res :: rs)) with (res :: omap id rs).
    rewrite length_cons. case_decide; lia.
  - apply IH.
Qed.

Lemma flush_buffer_eq st :
  let rs := fst (buffer_final_flush (frame_buffer (self st))) in
  let b' := snd (buffer_final_flush (frame_buffer (self st))) in
  let st1 := flush_groups rs (set_buffer b' st) in
  let r := snd (gate_flush (gate (self st1))) in
  flush_buffer st =
  {| self := {| cfg := cfg (self st1);
                frame_buffer := frame_buffer (self st1);
                gate := fst (gate_flush (gate (self st1)));
                stats := stat_add "gated" (N r) (stats (self st1)) |};
     prev_time := prev_time st1;
     trace := trace st1 ++ EvGateFlush r ::
              match frames r with [] => [] | _ :: _ => [EvYield (frames r)] end
              ++ [EvYield PROCESSING_DONE_ITERABLE] |}.
Proof.
  unfold flush_buffer. destruct (buffer_final_flush _) as [rs b']. simpl.
  destruct (gate_flush _) as [g' r]. simpl.
  unfold yield_frames. destruct (frames r); unfold_setters.
  - by rewrite <- app_assoc.
  - by rewrite <- !app_assoc.
Qed.

Lemma flush_buffer_submitted st :
  submitted_times (trace (flush_buffer st)) = submitted_times (trace st).
Proof.
  rewrite flush_buffer_eq. simpl. rewrite submitted_times_app. simpl.
  rewrite submitted_times_app, submitted_times_yield. simpl.
  by rewrite app_nil_r, flush_groups_submitted.
Qed.

Lemma flush_buffer_segments st :
  segments_of (trace (flush_buffer st)) = segments_of (trace st).
Proof.
  rewrite flush_buffer_eq. simpl. rewrite segments_of_app. simpl.
  rewrite segments_of_app, segments_of_yield. simpl.
  by rewrite app_nil_r, flush_groups_segments.
Qed.

Lemma flush_buffer_stat st k :
  k ≠ "gated" ->
  statistic (flush_buffer st) k =
  (statistic st k
   + if decide (k = "produced")
     then Z.of_nat (length (omap id (fst (buffer_final_flush (frame_buffer (self st))))))
     else 0)%Z.
Proof.
  intros Hg. rewrite flush_buffer_eq. unfold statistic at 1. simpl.
  rewrite stat_add_ne by done.
  fold (statistic (flush_groups
          (fst (buffer_final_flush (frame_buffer (self st))))
          (set_buffer (snd (buffer_final_flush (frame_buffer (self st)))) st)) k).
  by rewrite (flush_groups_stat _ _ k Hg).
Qed.

(** *** The shape of a run *)

Lemma start_run_statistic e k : statistic (start_run e) k = 0%Z.
Proof. apply stat_empty. Qed.

(** *** Invariants of a whole run *)

Lemma seek_segment_inv (P : run_state -> Prop) t gen
    (sst : @seg_state T Img Group B G) :
  (forall s r, P r -> P (emit (EvSegment s) r)) ->
  P (run sst) -> P (run (snd (fst (seek_segment t gen sst)))).
Proof.
  intros Hseg. revert sst.
  induction gen as [|s gen IH]; intros sst Hst; cbn [seek_segment].
  - by destruct (t_gtb _ _).
  - destruct (t_gtb _ _); [|done]. apply IH. simpl. by apply Hseg.
Qed.

Lemma segment_decode_loop_inv (P : run_state -> Prop) fs :
  (forall n fr r, P r -> P (fst (process_frame n fr r))) ->
  (forall s r, P r -> P (emit (EvSegment s) r)) ->
  forall n gen (sst : @seg_state T Img Group B G),
    P (run sst) -> P (run (snd (fst (segment_decode_loop fs n gen sst)))).
Proof.
  intros Hstep Hseg.
  induction fs as [|fr fs IH]; intros n gen sst Hst;
    cbn [segment_decode_loop]; [done|].
  assert (P (run (snd (fst (segment_process_frame n fr gen sst))))) as Hfr.
  { destruct fr as [|i|i|t i]; cbn [segment_process_frame]; [done..|].
    pose proof (seek_segment_inv P t gen sst Hseg Hst) as Hseek.
    destruct (seek_segment t gen sst) as [[gen' sst'] stop]. cbn [fst snd] in *.
    destruct stop; [done|]. destruct (t_leb _ _); [done|].
    exact (Hstep n (Timed t i) _ Hseek). }
  destruct (segment_process_frame n fr gen sst) as [[gen' sst'] fl].
  cbn [fst snd] in *. destruct fl; [by apply IH|done..].
Qed.

(** A property that every frame step keeps holds, when a run of the base
    engine completes, of the state the flush starts from; when the run
    raises, of the state it stopped in. *)
Lemma sample_inv (P : run_state -> Prop) e v :
  (forall n fr r, P r -> P (fst (process_frame n fr r))) ->
  P (start_run e) ->
  match snd (sample e v) with
  | Done => exists r, P r /\ fst (sample e v) = flush_buffer r
  | Raised _ => P (fst (sample e v))
  end.
Proof.
  intros Hstep Hstart. unfold sample. destruct v as [err|decode]; [done|].
  pose proof (decode_loop_inv P (decoded_frames (decode (keyframes_only (cfg e))))
                Hstep 0 (start_run e) Hstart) as Hst0.
  destruct (decode_loop _ _ _) as [st0 [err|]]; cbn [fst snd] in *; [done|].
  destruct (failure _); cbn [fst snd]; eauto.
Qed.

(** The same for the segment-aware engine, whose steps also pull segments. *)
Lemma segment_sample_inv (P : run_state -> Prop) (e : @SegmentSampler T B G) v :
  (forall n fr r, P r -> P (fst (process_frame n fr r))) ->
  (forall s r, P r -> P (emit (EvSegment s) r)) ->
  P (start_run (base e)) ->
  match snd (segment_sample e v) with
  | Done => exists r, P r /\ fst (fst (segment_sample e v)) = flush_buffer r
  | Raised _ => P (fst (fst (segment_sample e v)))
  end.
Proof.
  intros Hstep Hseg Hstart. unfold segment_sample.
  destruct (segment_generator e) as [|s gen]; [done|].
  destruct v as [err|decode]; cbn [fst snd].
  { simpl. by apply Hseg. }
  pose proof (segment_decode_loop_inv P
                (decoded_frames (decode (keyframes_only (cfg (base e)))))
                Hstep Hseg 0 gen (enter_segment s (start_run (base e)))
                (Hseg _ _ Hstart)) as Hloop.
  destruct (segment_decode_loop _ _ _ _) as [[gen' sst'] fl]. cbn [fst snd] in *.
  destruct fl; cbn [fst snd]; [|eauto..].
  destruct (failure _); cbn [fst snd]; eauto.
Qed.

(** *** Spacing of the submitted frames *)

Lemma spaced_process_frame n fr st : spaced st -> spaced (fst (process_frame n fr st)).
Proof.
  intros [Hc Hlast]. destruct fr as [|i|i|t i]; simpl; [done..|].
  destruct (t_ltb (t_sub t (prev_time st)) (min_frame_interval_sec (cfg (self st))))
    eqn:Hlt.
  - by rewrite interval_filter_reject.
  - rewrite interval_filter_accept by done. unfold spaced.
    rewrite submit_cfg, submit_submitted, submit_prev_time. simpl. split.
    + apply consecutive_snoc; [done|]. intros a Ha. by rewrite <- (Hlast a Ha).
    + intros a. rewrite last_snoc. by intros [= <-].
Qed.

Lemma spaced_segment s st : spaced st -> spaced (emit (EvSegment s) st).
Proof.
  unfold spaced. simpl. rewrite submitted_times_app. simpl.
  by rewrite app_nil_r.
Qed.

Lemma spaced_start e : spaced (start_run e).
Proof. split; [apply consecutive_nil|done]. Qed.


(** In every run, of either engine, the frames submitted are spaced by the
    filter's own test on [time_diff]. *)
Lemma sample_spaced e v :
  consecutive
    (fun a b => t_ltb (t_sub b a) (min_frame_interval_sec (cfg e)) = false)
    (submitted_times (trace (fst (sample e v)))).
Proof.
  pose proof (sample_inv (fun r => spaced r /\ cfg (self r) = cfg e) e v) as Hinv.
  destruct (snd (sample e v)).
  - destruct Hinv as (r & [[Hc _] Hcfg] & ->).
    + intros n fr r [Hr Hcfg]. split; [by apply spaced_process_frame|].
      by rewrite process_frame_cfg.
    + split; [apply spaced_start|done].
    + rewrite flush_buffer_submitted. by rewrite <- Hcfg.
  - destruct Hinv as [[Hc _] Hcfg].
    + intros n fr r [Hr Hcfg]. split; [by apply spaced_process_frame|].
      by rewrite process_frame_cfg.
    + split; [apply spaced_start|done].
    + by rewrite <- Hcfg.
Qed.

Lemma segment_sample_spaced (e : @SegmentSampler T B G) v :
  consecutive
    (fun a b => t_ltb (t_sub b a) (min_frame_interval_sec (cfg (base e))) = false)
    (submitted_times (trace (fst (fst (segment_sample e v))))).
Proof.
  pose proof (segment_sample_inv
                (fun r => spaced r /\ cfg (self r) = cfg (base e)) e v) as Hinv.
  destruct (snd (segment_sample e v)).
  - destruct Hinv as (r & [[Hc _] Hcfg] & ->).
    + intros n fr r [Hr Hcfg]. split; [by apply spaced_process_frame|].
      by rewrite process_frame_cfg.
    + intros s r [Hr Hcfg]. split; [by apply spaced_segment|done].
    + split; [apply spaced_start|done].
    + rewrite flush_buffer_submitted. by rewrite <- Hcfg.
  - destruct Hinv as [[Hc _] Hcfg].
    + intros n fr r [Hr Hcfg]. split; [by apply spaced_process_frame|].
      by rewrite process_frame_cfg.
    + intros s r [Hr Hcfg]. split; [by apply spaced_segment|done].
    + split; [apply spaced_start|done].
    + by rewrite <- Hcfg.
Qed.

(** The first frame of a run is measured against the sentinel [-10]: it is
    submitted exactly when the filter's test on [ftime - (-10)] fails. *)
Lemma first_frame_submitted n t i e :
  submitted_times (trace (fst (process_frame n (Timed t i) (start_run e)))) =
  if t_ltb (t_sub t (t_of_int (-10))) (min_frame_interval_sec (cfg e)) then [] else [t].
Proof.
  simpl.
  destruct (t_ltb (t_sub t (t_of_int (-10))) (min_frame_interval_sec (cfg e))) eqn:Hlt.
  - by rewrite interval_filter_reject.
  - rewrite interval_filter_accept by done. by rewrite submit_submitted.
Qed.

(** *** The interval filter on its own *)

(** A run on a video that opens, by cases on how the decode ends. *)
Lemma sample_opens e decode :
  let s := decode (keyframes_only (cfg e)) in
  let st0 := fst (decode_loop (decoded_frames s) 0 (start_run e)) in
  sample e (Opens decode) =
  match snd (decode_loop (decoded_frames s) 0 (start_run e)) with
  | Some err => (st0, Raised err)
  | None =>
      match failure s with
      | Some err => (st0, Raised err)
      | None => (flush_buffer st0, Done)
      end
  end.
Proof. unfold sample. by destruct (decode_loop _ _ _) as [st0 [err|]]. Qed.

(** What a run submits, whatever the buffer and the gate do. *)
Lemma sample_submitted e decode :
  submitted_times (trace (fst (sample e (Opens decode)))) =
  accepted (min_frame_interval_sec (cfg e)) (t_of_int (-10))
    (timestamps (decoded_frames (decode (keyframes_only (cfg e))))).
Proof.
  rewrite sample_opens. destruct (snd (decode_loop _ _ _)); [|destruct (failure _)];
    cbn [fst]; rewrite ?flush_buffer_submitted, decode_loop_submitted; done.
Qed.

Lemma sample_statistic e decode k :
  k ≠ "produced" -> k ≠ "gated" ->
  statistic (fst (sample e (Opens decode))) k =
  ((if decide (k = "total")
    then Z.of_nat (length (timestamps (decoded_frames (decode (keyframes_only (cfg e))))))
    else 0)
   + (if decide (k = "decoded")
      then Z.of_nat (length (accepted (min_frame_interval_sec (cfg e)) (t_of_int (-10))
                               (timestamps (decoded_frames (decode (keyframes_only (cfg e)))))))
      else 0))%Z.
Proof.
  intros Hp Hg.
  assert (statistic (fst (decode_loop (decoded_frames (decode (keyframes_only (cfg e))))
                            0 (start_run e))) k
          = ((if decide (k = "total")
              then Z.of_nat (length (timestamps
                                       (decoded_frames (decode (keyframes_only (cfg e))))))
              else 0)
             + (if decide (k = "decoded")
                then Z.of_nat (length (accepted (min_frame_interval_sec (cfg e))
                                         (t_of_int (-10))
                                         (timestamps (decoded_frames
                                                        (decode (keyframes_only (cfg e)))))))
                else 0))%Z) as Hloop.
  { unfold statistic. rewrite decode_loop_stat by done. simpl.
    rewrite stat_empty. lia. }
  rewrite sample_opens. destruct (snd (decode_loop _ _ _)); [|destruct (failure _)];
    cbn [fst]; [done..|].
  rewrite flush_buffer_stat by done.
  rewrite (decide_False (P := k = "produced")) by done.
  fold (statistic (fst (decode_loop (decoded_frames (decode (keyframes_only (cfg e))))
                          0 (start_run e))) k).
  rewrite Hloop. lia.
Qed.

End Engine.

(** ** Conservation of the statistics *)

Section Conservation.

Context {T : Type} `{TimeOps T} {Img Group B G : Type}.
Context `{!@FrameBuffer T Img Group B} `{!@Gate T Img Group G}.

Implicit Types st : @run_state T Img Group B G.
Implicit Types e : @VideoSampler T B G.






Context `{!@Conserving T Img Group B _}.







End Conservation.

(** ** The producer: termination of the batch sequence *)

Section Producer.

Context {T : Type} `{TimeOps T} {Img Group B G : Type}.
Context `{!@FrameBuffer T Img Group B} `{!@Gate T Img Group G}.

Implicit Types st : @run_state T Img Group B G.
Implicit Types e : @VideoSampler T B G.

Lemma is_sentinel_done : is_sentinel (PROCESSING_DONE_ITERABLE (T := T) (Img := Img)) = true.
Proof.
  unfold PROCESSING_DONE_ITERABLE, PROCESSING_DONE, is_sentinel, is_end. simpl.
  by rewrite lookup_singleton_eq.
Qed.

Lemma gated_batches_app (rs1 rs2 : list (@GatedResult T Img)) :
  gated_batches (rs1 ++ rs2) = gated_batches rs1 ++ gated_batches rs2.
Proof. apply omap_app. Qed.

Lemma yields_yield (r : @GatedResult T Img) :
  yields (match frames r with
          | [] => []
          | _ :: _ => [EvYield (Group := Group) (frames r)]
          end) = gated_batches [r].
Proof. unfold gated_batches. simpl. by destruct (frames r). Qed.

Lemma yields_gated_run_gate res st : yields_gated st -> yields_gated (run_gate res st).
Proof.
  unfold yields_gated. intros Hst. rewrite run_gate_eq. cbn [trace].
  rewrite yields_app, gate_results_app, gated_batches_app, Hst. f_equal.
  change (yields (EvGate res ?r :: ?tr)) with (yields tr).
  change (gate_results (EvGate res ?r :: ?tr)) with (r :: gate_results tr).
  by rewrite yields_yield, gate_results_yield.
Qed.

Lemma yields_gated_process_frame n fr st :
  yields_gated st -> yields_gated (fst (process_frame n fr st)).
Proof.
  intros Hst. destruct fr as [|i|i|t i]; simpl; [done..|].
  destruct (t_ltb (t_sub t (prev_time st)) (min_frame_interval_sec (cfg (self st))))
    eqn:Hlt.
  - by rewrite interval_filter_reject.
  - rewrite interval_filter_accept, submit_eq by done. simpl.
    match goal with
    | |- yields_gated match _ with Some g => run_gate g ?s | None => _ end =>
        assert (yields_gated s) as Hs
    end.
    { unfold yields_gated in *. simpl. rewrite yields_app, gate_results_app. simpl.
      by rewrite !app_nil_r. }
    destruct (snd (buffer_add _ _ _)); [|done]. by apply yields_gated_run_gate.
Qed.

(** A flushed run has yielded what the gate released, then the sentinel. *)
Lemma flush_buffer_yields st :
  yields_gated st ->
  yields (trace (flush_buffer st)) =
  gated_batches (gate_results (trace (flush_buffer st))) ++ [PROCESSING_DONE_ITERABLE].
Proof.
  intros Hst. rewrite flush_buffer_eq. cbn [trace].
  set (st1 := flush_groups _ _).
  assert (yields_gated st1) as Hst1.
  { apply flush_groups_inv; [apply yields_gated_run_gate|done]. }
  rewrite yields_app, gate_results_app, gated_batches_app, Hst1.
  rewrite <- app_assoc. f_equal.
  change (yields (EvGateFlush ?r :: ?tr)) with (yields tr).
  change (gate_results (EvGateFlush ?r :: ?tr)) with (r :: gate_results tr).
  rewrite yields_app, gate_results_app, yields_yield, gate_results_yield.
  simpl. by destruct (frames _).
Qed.


Lemma yields_gated_seek t gen (sst : @seg_state T Img Group B G) :
  yields_gated (run sst) -> yields_gated (run (snd (fst (seek_segment t gen sst)))).
Proof.
  revert sst. induction gen as [|s gen IH]; intros sst Hst; cbn [seek_segment].
  - by destruct (t_gtb _ _).
  - destruct (t_gtb _ _); [|done]. apply IH.
    unfold yields_gated in *. simpl.
    rewrite yields_app, gate_results_app. simpl. by rewrite !app_nil_r.
Qed.

Lemma yields_gated_segment_loop fs n gen (sst : @seg_state T Img Group B G) :
  yields_gated (run sst) ->
  yields_gated (run (snd (fst (segment_decode_loop fs n gen sst)))).
Proof.
  revert n gen sst. induction fs as [|fr fs IH]; intros n gen sst Hst;
    cbn [segment_decode_loop]; [done|].
  assert (yields_gated (run (snd (fst (segment_process_frame n fr gen sst)))))
    as Hstep.
  { destruct fr as [|i|i|t i]; cbn [segment_process_frame]; [done..|].
    pose proof (yields_gated_seek t gen sst Hst) as Hseek.
    destruct (seek_segment t gen sst) as [[gen' sst'] stop]. cbn [fst snd] in *.
    destruct stop; [done|]. destruct (t_leb _ _); [done|]. cbn [fst snd on_run run].
    exact (yields_gated_process_frame n (Timed t i) _ Hseek). }
  destruct (segment_process_frame n fr gen sst) as [[gen' sst'] fl].
  cbn [fst snd] in *. destruct fl; [by apply IH|done..].
Qed.









End Producer.

(** ** Running [sample] again on the same engine *)

Section Reuse.

Context {T : Type} `{TimeOps T} {Img Group B G : Type}.
Context `{!@FrameBuffer T Img Group B} `{!@Gate T Img Group G}.

Implicit Types st : @run_state T Img Group B G.
Implicit Types e : @VideoSampler T B G.








End Reuse.

(** ** The segment tracker *)

Section Segments.

Context {T : Type} `{TimeOps T} {Img Group B G : Type}.
Context `{!@FrameBuffer T Img Group B} `{!@Gate T Img Group G}.

Implicit Types st : @seg_state T Img Group B G.
Implicit Types r : @run_state T Img Group B G.
Implicit Types tr : list (@event T Img Group).

Lemma current_or_segment cur s tr :
  current_or cur (EvSegment s :: tr) = current_or (Some s) tr.
Proof.
  unfold current_or. change (segments_of (EvSegment s :: tr)) with (s :: segments_of tr).
  rewrite last_cons. by destruct (last _).
Qed.

Lemma contained_from_app cur tr tr' :
  contained_from cur (tr ++ tr') <->
  contained_from cur tr /\ contained_from (current_or cur tr) tr'.
Proof.
  revert cur. induction tr as [|ev tr IH]; intros cur.
  - simpl. unfold current_or. simpl. tauto.
  - destruct ev as [i m|res gr|gr|s|batch]; cbn [contained_from app].
    + rewrite IH. change (current_or cur (EvSubmit i m :: tr)) with (current_or cur tr).
      tauto.
    + rewrite IH. by change (current_or cur (EvGate res gr :: tr)) with (current_or cur tr).
    + rewrite IH. by change (current_or cur (EvGateFlush gr :: tr)) with (current_or cur tr).
    + by rewrite IH, current_or_segment.
    + rewrite IH. by change (current_or cur (EvYield batch :: tr)) with (current_or cur tr).
Qed.

(** Where a contained trace submits a frame, the segment pulled last before
    it holds the frame. *)
Lemma contained_from_submit tr1 i m tr2 :
  contained_from None (tr1 ++ EvSubmit i m :: tr2) ->
  exists t s, frame_time_of m = Some t /\
              last (segments_of tr1) = Some s /\ inside_b s t = true.
Proof.
  rewrite contained_from_app. intros [_ [(t & s & Ht & Hs & Hin) _]].
  exists t, s. repeat split; [done| |done].
  unfold current_or in Hs. by destruct (last _).
Qed.

Lemma contained_from_yield cur (gr : @GatedResult T Img) :
  contained_from cur (match frames gr with
                      | [] => []
                      | _ :: _ => [EvYield (Group := Group) (frames gr)]
                      end).
Proof. by destruct (frames gr). Qed.

Lemma contained_run_gate res r :
  contained_from None (trace r) -> contained_from None (trace (run_gate res r)).
Proof.
  intros Hr. rewrite run_gate_eq. simpl. apply contained_from_app.
  split; [done|]. simpl. apply contained_from_yield.
Qed.

Lemma contained_flush_buffer r :
  contained_from None (trace r) -> contained_from None (trace (flush_buffer r)).
Proof.
  intros Hr. rewrite flush_buffer_eq. simpl.
  apply contained_from_app. split.
  - apply (flush_groups_inv (fun r' => contained_from None (trace r')));
      [apply contained_run_gate|done].
  - simpl. apply contained_from_app. split; [apply contained_from_yield|done].
Qed.

(** A frame inside the current segment may go through the interval filter. *)
Lemma contained_interval_filter n t i r s :
  contained_from None (trace r) ->
  last (segments_of (trace r)) = Some s -> inside_b s t = true ->
  contained_from None (trace (interval_filter n t i r)).
Proof.
  intros Hr Hs Hin.
  destruct (t_ltb (t_sub t (prev_time r)) (min_frame_interval_sec (cfg (self r))))
    eqn:Hlt.
  - by rewrite interval_filter_reject.
  - rewrite interval_filter_accept, submit_eq by done. simpl.
    match goal with
    | |- contained_from None (trace match _ with Some g => run_gate g ?s | None => _ end) =>
        assert (contained_from None (trace s)) as Hs'
    end.
    { simpl. apply contained_from_app. split; [done|]. simpl. split; [|done].
      exists t, s. rewrite frame_time_of_frame_meta. unfold current_or.
      by rewrite Hs. }
    destruct (snd (buffer_add _ _ _)); [|done]. by apply contained_run_gate.
Qed.

(** Seeking pulls segments and does nothing else to the engine. *)
Lemma seek_segment_self t gen st :
  self (run (snd (fst (seek_segment t gen st)))) = self (run st) /\
  prev_time (run (snd (fst (seek_segment t gen st)))) = prev_time (run st).
Proof.
  revert st. induction gen as [|s gen IH]; intros st; simpl.
  - by destruct (t_gtb t (segment_boundary_end_sec st)).
  - destruct (t_gtb t (segment_boundary_end_sec st)); [|done].
    destruct (IH (enter_segment s (run st))) as [-> ->]. done.
Qed.

Lemma tracking_enter segs gen s r :
  segments_of (trace r) ++ s :: gen = segs ->
  contained_from None (trace r) ->
  tracking segs gen (enter_segment s r).
Proof.
  intros Hsegs Hr. unfold tracking, enter_segment. simpl.
  rewrite segments_of_app. simpl. split; [|split].
  - by rewrite <- app_assoc.
  - exists s. by rewrite last_snoc.
  - apply contained_from_app. by split.
Qed.

(** Seeking keeps the invariant, and when it does not stop the frame is not
    after the end of the segment it settles on. *)
Lemma tracking_seek segs t gen st :
  tracking segs gen st ->
  tracking segs (fst (fst (seek_segment t gen st))) (snd (fst (seek_segment t gen st))) /\
  (snd (seek_segment t gen st) = false ->
   t_gtb t (segment_boundary_end_sec (snd (fst (seek_segment t gen st)))) = false).
Proof.
  revert st. induction gen as [|s gen IH]; intros st Hst; simpl.
  - destruct (t_gtb t (segment_boundary_end_sec st)) eqn:Hgt; simpl; by split.
  - destruct (t_gtb t (segment_boundary_end_sec st)) eqn:Hgt; simpl; [|by split].
    apply IH. destruct Hst as (Hsegs & _ & Hc). by apply tracking_enter.
Qed.

Lemma tracking_process_frame segs n fr gen st :
  tracking segs gen st ->
  tracking segs (fst (fst (segment_process_frame n fr gen st)))
    (snd (fst (segment_process_frame n fr gen st))).
Proof.
  intros Hst. destruct fr as [|i|i|t i]; simpl; [done..|].
  destruct (tracking_seek segs t gen st Hst) as [Hseek Hend].
  destruct (seek_segment t gen st) as [[gen' st'] stop]. simpl in *.
  destruct stop; simpl; [done|].
  destruct (t_leb t (segment_boundary_start_sec st')) eqn:Hle; simpl; [done|].
  destruct Hseek as (Hsegs & (s & Hlast & Hes & Hss) & Hc).
  unfold tracking. simpl. rewrite interval_filter_segments.
  split; [done|]. split; [by exists s|].
  apply (contained_interval_filter _ _ _ _ s); [done..|].
  unfold inside_b. rewrite <- Hes, <- Hss, Hend, Hle by done. done.
Qed.

Lemma tracking_decode_loop segs fs n gen st :
  tracking segs gen st ->
  tracking segs (fst (fst (segment_decode_loop fs n gen st)))
    (snd (fst (segment_decode_loop fs n gen st))).
Proof.
  revert n gen st. induction fs as [|fr fs IH]; intros n gen st Hst; simpl; [done|].
  pose proof (tracking_process_frame segs n fr gen st Hst) as Hstep.
  destruct (segment_process_frame n fr gen st) as [[gen' st'] fl]. simpl in *.
  destruct fl; simpl; [by apply IH|done..].
Qed.

(** Every run of the segment-aware engine pulls the supplied segments in
    order, each once, and submits only frames that the tracker's tests place
    inside the segment pulled last. *)
Lemma segment_sample_tracking (e : @SegmentSampler T B G) (v : @video T Img) :
  segments_of (trace (fst (fst (segment_sample e v)))) ++ snd (fst (segment_sample e v))
    = segment_generator e /\
  contained_from None (trace (fst (fst (segment_sample e v)))).
Proof.
  unfold segment_sample. destruct (segment_generator e) as [|s gen]; [done|].
  assert (tracking (s :: gen) gen (enter_segment s (start_run (base e)))) as Hst.
  { by apply tracking_enter. }
  destruct v as [err|decode]; simpl.
  { destruct Hst as (Hsegs & _ & Hc). by split. }
  pose proof (tracking_decode_loop (s :: gen)
                (decoded_frames (decode (keyframes_only (cfg (base e))))) 0 gen _ Hst)
    as Hloop.
  destruct (segment_decode_loop _ _ _ _) as [[gen' st'] stop]. simpl in *.
  destruct Hloop as (Hsegs & _ & Hc).
  assert (segments_of (trace (flush_buffer (run st'))) ++ gen' = s :: gen /\
          contained_from None (trace (flush_buffer (run st')))) as Hflush.
  { rewrite flush_buffer_segments. split; [done|]. by apply contained_flush_buffer. }
  destruct stop as [| |err]; simpl; [by destruct (failure _)|done..].
Qed.

(** C9, at its failing input.  When the segment sequence is empty before any
    frame is decoded, the first [next] raises inside the generator: the run
    yields no batch, not even the sentinel, and [write_queue], which
    recognises only the two PyAV errors, lets the exception through and
    pushes nothing. *)
Theorem segment_exhausted_at_start (b : @VideoSampler T B G) (v : @video T Img)
    (q : list (list (@FrameObject T Img))) :
  snd (segment_sample {| base := b; segment_generator := [] |} v) = Raised RuntimeError /\
  yields (trace (fst (fst (segment_sample {| base := b; segment_generator := [] |} v)))) = [] /\
  snd (segment_write_queue {| base := b; segment_generator := [] |} v q)
    = Raised RuntimeError /\
  snd (fst (segment_write_queue {| base := b; segment_generator := [] |} v q)) = q.
Proof.
  unfold segment_write_queue, segment_sample, relay. simpl.
  by rewrite app_nil_r.
Qed.

(** Exhaustion met inside the decode loop ends the run normally: the loop is
    left, the buffer is flushed and the sentinel is the last batch. *)
Lemma flush_buffer_last r :
  last (yields (trace (flush_buffer r))) = Some PROCESSING_DONE_ITERABLE.
Proof.
  rewrite flush_buffer_eq. simpl. rewrite yields_app. simpl.
  rewrite yields_app. simpl. by rewrite !app_assoc, last_snoc.
Qed.

Lemma segment_exhausted_mid_decode (e : @SegmentSampler T B G)
    (decode : bool -> @decode_stream T Img) s gen :
  segment_generator e = s :: gen ->
  snd (segment_decode_loop (decoded_frames (decode (keyframes_only (cfg (base e)))))
         0 gen (enter_segment s (start_run (base e)))) = Break ->
  snd (segment_sample e (Opens decode)) = Done /\
  last (yields (trace (fst (fst (segment_sample e (Opens decode))))))
    = Some PROCESSING_DONE_ITERABLE.
Proof.
  intros Hgen Hstop. unfold segment_sample. rewrite Hgen.
  destruct (segment_decode_loop _ _ _ _) as [[gen' st'] stop]. simpl in *.
  subst stop. simpl. split; [done|]. apply flush_buffer_last.
Qed.

End Segments.

(** ** The consumer loop *)

Section Consumer.

Context {T : Type} `{TimeOps T} {Img : Type}.

Implicit Types fo : @FrameObject T Img.
Implicit Types batch : list (@FrameObject T Img).
Implicit Types r : @reader_state T Img.

Variable devnull : bool.
Variable output_path : string.

#[local] Abbreviation saved := (omap (saved_as devnull output_path)).
#[local] Abbreviation live := (Forall (fun fo => is_end fo = false)).

(** A batch is read up to its first terminal object; what is read before it
    is saved. *)
Lemma read_batch_spec batch d :
  Forall carries_frame_time batch ->
  (live batch /\
   read_batch devnull output_path batch d = (d ++ saved batch, Polling)) \/
  (exists pre fo post,
      batch = pre ++ fo :: post /\ is_end fo = true /\ live pre /\
      read_batch devnull output_path batch d = (d ++ saved pre, Returned)).
Proof.
  intros Hwf. revert d. induction Hwf as [|fo batch Hfo Hwf IH]; intros d.
  { left. split; [constructor|]. simpl. by rewrite app_nil_r. }
  cbn [read_batch]. destruct (is_end fo) eqn:Hend.
  { right. exists [], fo, batch. repeat split; [done|constructor|].
    simpl. by rewrite app_nil_r. }
  assert (exists d', d ++ saved [fo] = d' /\
            match frame fo with
            | Some (PILImage i) =>
                if devnull then read_batch devnull output_path batch d
                else match metadata fo !! "frame_time" with
                     | Some ft =>
                         read_batch devnull output_path batch
                           (d ++ [{| directory := output_path; stem := ft; image := i |}])
                     | None => (d, Failed KeyError)
                     end
            | _ => read_batch devnull output_path batch d
            end = read_batch devnull output_path batch d') as (d' & Hd' & ->).
  { unfold carries_frame_time in Hfo. cbn [omap list_omap]. unfold saved_as.
    destruct (frame fo) as [[i|]|]; destruct devnull;
      rewrite ?app_nil_r; eauto.
    destruct (Hfo i eq_refl) as [ft ->]. eauto. }
  destruct (IH d') as [[Hlive ->]|(pre & fo' & post & -> & Hend' & Hlive & ->)].
  - left. split; [by constructor|].
    rewrite <- Hd', <- app_assoc, <- omap_app. done.
  - right. exists (fo :: pre), fo', post. repeat split; [done|by constructor|].
    rewrite <- Hd', <- app_assoc, <- omap_app. done.
Qed.

Lemma reader_inv_put arrived r batch :
  reader_inv devnull output_path arrived r ->
  reader_inv devnull output_path (arrived ++ [batch])
    (act devnull output_path r (Put batch)).
Proof.
  unfold reader_inv. simpl. destruct (status r); [| |done].
  - intros (ds & -> & Hlive & Hdisk). exists ds. by rewrite <- app_assoc.
  - intros (ds & pre & fo & post & -> & Hend & Hlive & Hdisk).
    exists ds, pre, fo, post. by rewrite <- app_assoc.
Qed.

Lemma reader_inv_poll arrived r :
  Forall (Forall carries_frame_time) arrived ->
  reader_inv devnull output_path arrived r ->
  reader_inv devnull output_path arrived (poll devnull output_path r).
Proof.
  intros Hwf. unfold reader_inv, poll.
  destruct (status r) eqn:Hs; rewrite ?Hs; [|done..].
  destruct (queue r) as [|batch rest] eqn:Hq; rewrite ?Hs, ?Hq; [done|].
  intros (ds & -> & Hlive & Hdisk).
  assert (Forall carries_frame_time batch) as Hb.
  { apply Forall_app in Hwf as [_ Hwf]. by apply Forall_cons in Hwf as [? _]. }
  destruct (read_batch_spec batch (disk r) Hb)
    as [[Hlb ->]|(pre & fo & post & -> & Hend & Hlp & ->)]; simpl.
  - exists (ds ++ [batch]). rewrite <- app_assoc. split; [done|].
    rewrite concat_app. simpl. rewrite app_nil_r. split.
    + by apply Forall_app.
    + by rewrite omap_app, Hdisk.
  - exists ds, pre, fo, post. split; [done|]. split; [done|]. split.
    + by apply Forall_app.
    + by rewrite omap_app, Hdisk.
Qed.

Lemma puts_app (s1 s2 : list (@action T Img)) : puts (s1 ++ s2) = puts s1 ++ puts s2.
Proof. apply omap_app. Qed.

Lemma queue_reader_snoc (schedule : list (@action T Img)) a :
  queue_reader devnull output_path (schedule ++ [a]) =
  act devnull output_path (queue_reader devnull output_path schedule) a.
Proof. unfold queue_reader. by rewrite fold_left_app. Qed.

Lemma queue_reader_inv (schedule : list (@action T Img)) :
  Forall (Forall carries_frame_time) (puts schedule) ->
  reader_inv devnull output_path (puts schedule)
    (queue_reader devnull output_path schedule).
Proof.
  induction schedule as [|a schedule IH] using rev_ind; intros Hwf.
  { unfold reader_inv. simpl. exists []. repeat split. constructor. }
  rewrite queue_reader_snoc, puts_app. rewrite puts_app in Hwf.
  apply Forall_app in Hwf as [Hwf Ha].
  destruct a as [batch|]; simpl.
  - by apply reader_inv_put, IH.
  - rewrite app_nil_r. by apply reader_inv_poll, IH.
Qed.

(** C10.  Whatever batches arrive and however the producer's puts and the
    consumer's loop turns interleave: [queue_reader] has returned only if it
    dequeued a batch holding an object marked [end]; it then inspected
    nothing after that object; until then it keeps polling, and it has saved
    exactly the objects inspected so far that carry a PIL image, unless it
    runs in discard mode, each as [<frame_time>.jpg] under the output path;
    a loop turn that dequeues a batch holding an object marked [end]
    returns; and if no such object ever arrives the reader polls for ever.
    Frame objects that carry an image carry a [frame_time]. *)
Theorem queue_reader_terminal (schedule : list (@action T Img)) :
  Forall (Forall carries_frame_time) (puts schedule) ->
  let r := queue_reader devnull output_path schedule in
  (status r = Returned ->
   exists ds pre fo post,
     puts schedule = ds ++ (pre ++ fo :: post) :: queue r /\
     is_end fo = true /\ live (concat ds ++ pre) /\
     disk r = saved (concat ds ++ pre)) /\
  (status r = Polling ->
   exists ds, puts schedule = ds ++ queue r /\ live (concat ds) /\
              disk r = saved (concat ds)) /\
  (status r = Polling \/ status r = Returned) /\
  (status r = Polling ->
   forall batch rest, queue r = batch :: rest ->
     Exists (fun fo => is_end fo = true) batch ->
     status (poll devnull output_path r) = Returned) /\
  (Forall live (puts schedule) -> status r = Polling).
Proof.
  intros Hwf r. pose proof (queue_reader_inv schedule Hwf) as Hinv.
  fold r in Hinv. unfold reader_inv in Hinv.
  assert (status r = Returned ->
          exists ds pre fo post,
            puts schedule = ds ++ (pre ++ fo :: post) :: queue r /\
            is_end fo = true /\ live (concat ds ++ pre) /\
            disk r = saved (concat ds ++ pre)) as Hret.
  { intros Hs. by rewrite Hs in Hinv. }
  split; [done|]. split; [|split; [|split]].
  - intros Hs. by rewrite Hs in Hinv.
  - destruct (status r); [by left|by right|done].
  - intros Hs batch rest Hq Hex. unfold poll. rewrite Hs, Hq.
    rewrite Hs in Hinv. destruct Hinv as (ds & Harr & _).
    assert (Forall carries_frame_time batch) as Hb.
    { rewrite Harr, Hq in Hwf. apply Forall_app in Hwf as [_ Hwf].
      by apply Forall_cons in Hwf as [? _]. }
    destruct (read_batch_spec batch (disk r) Hb)
      as [[Hlb _]|(pre & fo & post & _ & _ & _ & ->)]; [|done].
    apply Exists_exists in Hex as (fo & Hin & Hend).
    rewrite Forall_forall in Hlb. specialize (Hlb fo Hin). congruence.
  - intros Hlive. destruct (status r) eqn:Hs; [done| |done].
    destruct (Hret eq_refl) as (ds & pre & fo & post & Harr & Hend & _).
    rewrite Harr in Hlive. apply Forall_app in Hlive as [_ Hlive].
    apply Forall_cons in Hlive as [Hlive _].
    apply Forall_app in Hlive as [_ Hlive].
    apply Forall_cons in Hlive as [Hfo _]. congruence.
Qed.

End Consumer.

(** ** Comparisons of binary64 values

    What the engine's tests say about the numbers compared.  A comparison
    with a NaN is false whichever way it is put, so the facts that turn a
    failed test around ask for two numbers ([is_nan] is [math.isnan]). *)

Lemma SFcompare_antisym (x y : spec_float) :
  SFcompare y x = option_map CompOpp (SFcompare x y).
Proof.
  destruct x as [s1|s1| |s1 m1 e1], y as [s2|s2| |s2 m2 e2]; cbn [SFcompare option_map];
    try reflexivity; try (by destruct s1); try (by destruct s2);
    try (by destruct s1, s2).
  assert (Pos.compare_cont Eq m2 m1 = CompOpp (Pos.compare_cont Eq m1 m2)) as Hm.
  { by rewrite Pos.compare_cont_antisym. }
  change PosDef.Pos.compare_cont with Pos.compare_cont.
  rewrite Hm, (Z.compare_antisym e1 e2).
  destruct s1, s2; try reflexivity; f_equal;
    destruct (e1 ?= e2)%Z; cbn [CompOpp]; try reflexivity;
    by destruct (Pos.compare_cont Eq m1 m2).
Qed.

Lemma SFcompare_None (x y : spec_float) :
  SFcompare x y = None -> SFcompare x x = None \/ SFcompare y y = None.
Proof.
  destruct x as [s1|s1| |s1 m1 e1], y as [s2|s2| |s2 m2 e2]; cbn [SFcompare];
    try discriminate; auto.
Qed.

Lemma is_nan_false (x : float) :
  is_nan x = false -> SFcompare (Prim2SF x) (Prim2SF x) <> None.
Proof.
  unfold is_nan. intros Hn. apply negb_false_iff in Hn.
  rewrite FloatAxioms.eqb_spec in Hn. unfold SFeqb in Hn.
  by destruct (SFcompare _ _).
Qed.

(** [not (x < y)] gives [y <= x] for two numbers. *)
Lemma float_not_lt (x y : float) :
  PrimFloat.ltb x y = false -> is_nan x = false -> is_nan y = false ->
  PrimFloat.leb y x = true.
Proof.
  rewrite FloatAxioms.ltb_spec, FloatAxioms.leb_spec. unfold SFltb, SFleb.
  intros Hlt Hx Hy. rewrite SFcompare_antisym.
  destruct (SFcompare (Prim2SF x) (Prim2SF y)) as [[| |]|] eqn:Hc; try done.
  destruct (SFcompare_None _ _ Hc);
    [by apply is_nan_false in Hx|by apply is_nan_false in Hy].
Qed.

(** [not (x <= y)] gives [y < x] for two numbers. *)
Lemma float_not_le (x y : float) :
  PrimFloat.leb x y = false -> is_nan x = false -> is_nan y = false ->
  PrimFloat.ltb y x = true.
Proof.
  rewrite FloatAxioms.ltb_spec, FloatAxioms.leb_spec. unfold SFltb, SFleb.
  intros Hle Hx Hy. rewrite SFcompare_antisym.
  destruct (SFcompare (Prim2SF x) (Prim2SF y)) as [[| |]|] eqn:Hc; try done.
  destruct (SFcompare_None _ _ Hc);
    [by apply is_nan_false in Hx|by apply is_nan_false in Hy].
Qed.

(** [x == y] excludes [y < x] and gives [x <= y]. *)
Lemma float_eq_tie (x y : float) :
  PrimFloat.eqb x y = true -> PrimFloat.ltb y x = false /\ PrimFloat.leb x y = true.
Proof.
  rewrite FloatAxioms.eqb_spec, FloatAxioms.ltb_spec, FloatAxioms.leb_spec.
  unfold SFeqb, SFltb, SFleb.
  rewrite (SFcompare_antisym (Prim2SF x) (Prim2SF y)).
  by destruct (SFcompare (Prim2SF x) (Prim2SF y)) as [[| |]|].
Qed.

(** [x < y] excludes [y <= x]. *)
Lemma float_lt_not_le (x y : float) :
  PrimFloat.ltb x y = true -> PrimFloat.leb y x = false.
Proof.
  rewrite FloatAxioms.ltb_spec, FloatAxioms.leb_spec. unfold SFltb, SFleb.
  rewrite (SFcompare_antisym (Prim2SF x) (Prim2SF y)).
  by destruct (SFcompare (Prim2SF x) (Prim2SF y)) as [[| |]|].
Qed.

(** ** The engine over binary64 timestamps *)

#[local] Set Warnings "-inexact-float".


Lemma accepted_long_interval :
  accepted (T := float) 20%float (t_of_int (-10)) [0]%float = [].
Proof. vm_compute. reflexivity. Qed.

Section Binary64.

Context {Img Group B G : Type}.
Context `{!@FrameBuffer float Img Group B} `{!@Gate float Img Group G}.

Implicit Types e : @VideoSampler float B G.
Implicit Types st : @run_state float Img Group B G.
Implicit Types sst : @seg_state float Img Group B G.
Implicit Types v : @video float Img.

(** C3.  In every run, of the base engine or of the segment-aware one and
    whatever the input, two frames submitted to the buffer one after the
    other have timestamps whose difference [b - a], as the engine computes
    it in binary64, is not below [min_frame_interval_sec]; when that
    difference and the interval are numbers, it is at least the interval.
    A frame the filter rejects changes neither [prev_time] nor the [decoded]
    counter, and is not submitted.  (The spacing holds for every input
    sequence, the non-decreasing ones in particular.) *)
Theorem interval_monotonicity v :
  (forall e,
     consecutive
       (fun a b =>
          PrimFloat.ltb (b - a) (min_frame_interval_sec (cfg e)) = false /\
          (is_nan (b - a) = false -> is_nan (min_frame_interval_sec (cfg e)) = false ->
           PrimFloat.leb (min_frame_interval_sec (cfg e)) (b - a) = true))
       (submitted_times (trace (fst (sample e v))))) /\
  (forall e : @SegmentSampler float B G,
     consecutive
       (fun a b =>
          PrimFloat.ltb (b - a) (min_frame_interval_sec (cfg (base e))) = false /\
          (is_nan (b - a) = false ->
           is_nan (min_frame_interval_sec (cfg (base e))) = false ->
           PrimFloat.leb (min_frame_interval_sec (cfg (base e))) (b - a) = true))
       (submitted_times (trace (fst (fst (segment_sample e v)))))) /\
  (forall n t i st,
     PrimFloat.ltb (t - prev_time st) (min_frame_interval_sec (cfg (self st))) = true ->
     prev_time (fst (process_frame n (Timed t i) st)) = prev_time st /\
     statistic (fst (process_frame n (Timed t i) st)) "decoded" = statistic st "decoded" /\
     submitted_times (trace (fst (process_frame n (Timed t i) st))) =
       submitted_times (trace st)).
Proof.
  split; [|split].
  - intros e k a b Ha Hb. pose proof (sample_spaced e v k a b Ha Hb) as Hlt.
    split; [exact Hlt|]. intros Hd Hm. by apply float_not_lt.
  - intros e k a b Ha Hb. pose proof (segment_sample_spaced e v k a b Ha Hb) as Hlt.
    split; [exact Hlt|]. intros Hd Hm. by apply float_not_lt.
  - intros n t i st Hlt. cbn [process_frame fst].
    rewrite interval_filter_reject by exact Hlt.
    repeat split. unfold statistic. simpl. by rewrite stat_add_ne.
Qed.

(** *** The segment-aware engine *)

Lemma inside_b_tests (s : subtitle_line) (t : float) :
  inside_b s t = true ->
  PrimFloat.leb t (float_truediv (start_time s) 1000) = false /\
  PrimFloat.ltb (float_truediv (end_time s) 1000) t = false.
Proof.
  unfold inside_b, t_gtb. rewrite andb_true_iff, !negb_true_iff.
  by intros [Hend Hstart].
Qed.

Lemma seek_segment_at_end t gen sst :
  PrimFloat.ltb (segment_boundary_end_sec sst) t = false ->
  seek_segment t gen sst = (gen, sst, false).
Proof.
  intros Hle. destruct gen; cbn [seek_segment]; unfold t_gtb;
    cbn [t_ltb float_time]; by rewrite Hle.
Qed.

(** C1, as amended.  A frame whose timestamp equals ([==]) the end boundary
    of the current segment is not advanced past, and it is inside the
    segment (it reaches the [total] increment and the interval filter) when
    the segment's start lies below it.  A frame whose timestamp equals the
    start boundary of the segment the tracker settles on is skipped as not
    yet in the segment: the frame step ends where the seek ended, with the
    engine's statistics untouched.  Timestamps and boundaries are binary64
    values, compared as the engine compares them. *)
Theorem segment_boundary_ties n (t : float) (i : Img) gen sst :
  (PrimFloat.eqb t (segment_boundary_end_sec sst) = true ->
   seek_segment t gen sst = (gen, sst, false)) /\
  (PrimFloat.eqb t (segment_boundary_end_sec sst) = true ->
   PrimFloat.ltb (segment_boundary_start_sec sst) t = true ->
   segment_process_frame n (Timed t i) gen sst
   = (gen, on_run (interval_filter n t i) sst, Next)) /\
  (snd (seek_segment t gen sst) = false ->
   PrimFloat.eqb t (segment_boundary_start_sec (snd (fst (seek_segment t gen sst))))
     = true ->
   segment_process_frame n (Timed t i) gen sst
   = (fst (fst (seek_segment t gen sst)), snd (fst (seek_segment t gen sst)), Next) /\
   stats (self (run (snd (fst (seek_segment t gen sst))))) = stats (self (run sst))).
Proof.
  split; [|split].
  - intros Heq. apply seek_segment_at_end. by apply float_eq_tie.
  - intros Heq Hlt. cbn [segment_process_frame].
    rewrite seek_segment_at_end by (by apply float_eq_tie).
    cbn [t_leb float_time]. by rewrite (float_lt_not_le _ _ Hlt).
  - intros Hstop Heq. split.
    + cbn [segment_process_frame].
      destruct (seek_segment t gen sst) as [[gen' sst'] stop].
      cbn [fst snd] in *. subst stop.
      cbn [t_leb float_time]. by rewrite (proj2 (float_eq_tie _ _ Heq)).
    + by rewrite (proj1 (seek_segment_self t gen sst)).
Qed.

(** C7.  In every run of the segment-aware engine the segments pulled from
    the generator, followed by those left in it, are the supplied sequence:
    segments are taken in the supplied order, each at most once, and none
    is returned to.  Every frame submitted to the buffer passed the
    tracker's two tests against the segment pulled last before it, one of
    the supplied segments: its timestamp is not at or before the start and
    not after the end, the bounds being the quotients [start_time / 1000]
    and [end_time / 1000] rounded to binary64; when the three are numbers
    the timestamp is above the start and at most the end, so it lies within
    [start, end] of a supplied segment. *)
Theorem segment_containment (e : @SegmentSampler float B G) v :
  segments_of (trace (fst (fst (segment_sample e v)))) ++ snd (fst (segment_sample e v))
    = segment_generator e /\
  forall tr1 i m tr2,
    trace (fst (fst (segment_sample e v))) = tr1 ++ EvSubmit i m :: tr2 ->
    exists t s,
      frame_time_of m = Some t /\
      last (segments_of tr1) = Some s /\
      s ∈ segment_generator e /\
      PrimFloat.leb t (float_truediv (start_time s) 1000) = false /\
      PrimFloat.ltb (float_truediv (end_time s) 1000) t = false /\
      (is_nan t = false ->
       is_nan (float_truediv (start_time s) 1000) = false ->
       is_nan (float_truediv (end_time s) 1000) = false ->
       PrimFloat.ltb (float_truediv (start_time s) 1000) t = true /\
       PrimFloat.leb t (float_truediv (end_time s) 1000) = true).
Proof.
  destruct (segment_sample_tracking e v) as [Hsegs Hc].
  split; [done|].
  intros tr1 i m tr2 Htr. rewrite Htr in Hc, Hsegs.
  destruct (contained_from_submit _ _ _ _ Hc) as (t & s & Ht & Hs & Hin).
  destruct (inside_b_tests s t Hin) as [Hstart Hend].
  exists t, s. split; [done|]. split; [done|]. split; [|split; [done|split; [done|]]].
  - rewrite <- Hsegs, segments_of_app. apply elem_of_app. left.
    apply elem_of_app. left. by apply last_Some_elem_of.
  - intros Hnt Hns Hne. split; [by apply float_not_le|by apply float_not_lt].
Qed.


(** C2, at its failing input.  With [min_frame_interval_sec = 20.0] and a
    video whose only frame has the timestamp 0.0, the first frame with a
    readable timestamp does not pass the filter: [time_diff] is
    [0.0 - (-10) = 10.0 < 20.0], so the frame is counted in [total] but is
    neither counted in [decoded] nor submitted to the buffer. *)
Theorem first_frame_rejected e (decode : bool -> @decode_stream float Img) :
  min_frame_interval_sec (cfg e) = 20%float ->
  timestamps (decoded_frames (decode (keyframes_only (cfg e)))) = [0]%float ->
  submitted_times (trace (fst (sample e (Opens decode)))) = [] /\
  statistic (fst (sample e (Opens decode))) "total" = 1%Z /\
  statistic (fst (sample e (Opens decode))) "decoded" = 0%Z.
Proof.
  intros Hmin Hts. split; [|split].
  - rewrite sample_submitted, Hmin, Hts. apply accepted_long_interval.
  - rewrite sample_statistic by done. rewrite Hts. reflexivity.
  - rewrite sample_statistic by done. rewrite Hmin, Hts, accepted_long_interval.
    reflexivity.
Qed.

End Binary64.

(** ** The properties on concrete runs *)

Section Runs.

Import Collaborators.

(** C1, a run that contradicts the claim as stated: the only frame of the
    video has the timestamp 1.0, exactly the start boundary of the only
    segment (1000 ms, and 1000 / 1000 is 1.0).  The frame step does not
    take the frame to the interval filter, and the run completes with
    [total] still 0 and nothing submitted: the frame was skipped as not yet
    in the segment. *)
Lemma start_boundary_frame_skipped :
  PrimFloat.eqb 1%float (segment_boundary_start_sec in_lone_cue) = true /\
  segment_process_frame 0 (Timed 1%float 0%nat) [] in_lone_cue
    <> ([], on_run (interval_filter 0 1%float 0%nat) in_lone_cue, Next) /\
  snd (segment_sample (segment_engine 1%float lone_cue) start_tie_video) = Done /\
  statistic (fst (fst (segment_sample (segment_engine 1%float lone_cue)
                         start_tie_video))) "total" = 0%Z /\
  submitted_times (trace (fst (fst (segment_sample (segment_engine 1%float lone_cue)
                                      start_tie_video)))) = [].
Proof.
  split; [reflexivity|split].
  - intros Heq.
    apply (f_equal (fun x => statistic (run (snd (fst x))) "total")) in Heq.
    vm_compute in Heq. discriminate Heq.
  - vm_compute. repeat split.
Qed.

(** The end tie holds at a bound that is not a binary64 value: the frame at
    the binary64 value [1.1] equals the rounded quotient 1100 / 1000. *)
Lemma segment_boundary_ties_witness :
  seek_segment 1.1%float [] in_rounded_cue = ([], in_rounded_cue, false) /\
  segment_process_frame 0 (Timed 1.1%float 0%nat) [] in_rounded_cue
    = ([], on_run (interval_filter 0 1.1%float 0%nat) in_rounded_cue, Next) /\
  segment_process_frame 0 (Timed 1%float 0%nat) [] in_lone_cue = ([], in_lone_cue, Next).
Proof.
  split; [|split].
  - exact (proj1 (segment_boundary_ties 0 1.1%float 0%nat [] in_rounded_cue) eq_refl).
  - exact (proj1 (proj2 (segment_boundary_ties 0 1.1%float 0%nat [] in_rounded_cue))
             eq_refl eq_refl).
  - exact (proj1 (proj2 (proj2 (segment_boundary_ties 0 1%float 0%nat [] in_lone_cue))
                    eq_refl eq_refl)).
Defined.

Lemma first_frame_rejected_witness :
  submitted_times (trace (fst (sample (engine 20%float) (Opens lone_frame_decode)))) = [] /\
  statistic (fst (sample (engine 20%float) (Opens lone_frame_decode))) "total" = 1%Z /\
  statistic (fst (sample (engine 20%float) (Opens lone_frame_decode))) "decoded" = 0%Z.
Proof. apply first_frame_rejected; reflexivity. Defined.

(** The frames at the binary64 values [0.2] and [1.2] are both submitted at
    interval 1: their binary64 difference is 1. *)
Lemma interval_monotonicity_witness :
  (PrimFloat.ltb (1.2 - 0.2)%float 1%float = false /\
   (is_nan (1.2 - 0.2)%float = false -> is_nan 1%float = false ->
    PrimFloat.leb 1%float (1.2 - 0.2)%float = true)) /\
  (PrimFloat.ltb (6 - 0.5)%float 1%float = false /\
   (is_nan (6 - 0.5)%float = false -> is_nan 1%float = false ->
    PrimFloat.leb 1%float (6 - 0.5)%float = true)) /\
  prev_time (fst (process_frame 1 (Timed 0.3%float 1%nat)
               (set_prev_time 0%float (start_run (engine 1%float))))) = 0%float.
Proof.
  split; [|split].
  - exact (proj1 (interval_monotonicity rounding_video) (engine 1%float)
             0%nat 0.2%float 1.2%float eq_refl eq_refl).
  - exact (proj1 (proj2 (interval_monotonicity gap_video))
             (segment_engine 1%float gap_cues) 0%nat 0.5%float 6%float eq_refl eq_refl).
  - exact (proj1 (proj2 (proj2 (interval_monotonicity scenario_video))
                    1%nat 0.3%float 1%nat
                    (set_prev_time 0%float (start_run (engine 1%float)))
                    eq_refl)).
Defined.


(** Another such run: the video opens and decodes, and its second frame has
    no presentation timestamp.  The subtraction at line 85 raises
    [TypeError]; the frame released before it is on the queue, no sentinel
    follows, and the exception leaves [write_queue]. *)
Lemma null_time_no_sentinel :
  snd (write_queue (plain_engine 1%float) null_time_video []) = Raised TypeError /\
  snd (fst (write_queue (plain_engine 1%float) null_time_video []))
    = [[frame_object_at 0%float 0]].
Proof. vm_compute. by split. Qed.

(** Two inputs the claim names: a video with no frame, and a video that
    [av.open] rejects as invalid data.  Each leaves the sentinel alone on
    the queue. *)
Lemma zero_length_video_sentinel :
  snd (fst (write_queue (plain_engine 1%float) (plain_video []) []))
    = [PROCESSING_DONE_ITERABLE] /\
  snd (write_queue (plain_engine 1%float) (plain_video []) []) = Done.
Proof. vm_compute. by split. Qed.

Lemma invalid_data_sentinel :
  snd (fst (write_queue (plain_engine 1%float) (OpenFails InvalidDataError) []))
    = [PROCESSING_DONE_ITERABLE] /\
  snd (write_queue (plain_engine 1%float) (OpenFails InvalidDataError) []) = Done.
Proof. vm_compute. by split. Qed.




Lemma segment_containment_witness :
  exists t s,
    frame_time_of (frame_meta 0.5%float 0) = Some t /\
    last (segments_of [EvSegment (T := float) (Img := nat) (Group := group float)
                         (cue 0 2000)])
      = Some s /\
    s ∈ gap_cues /\
    PrimFloat.leb t (float_truediv (start_time s) 1000) = false /\
    PrimFloat.ltb (float_truediv (end_time s) 1000) t = false /\
    (is_nan t = false ->
     is_nan (float_truediv (start_time s) 1000) = false ->
     is_nan (float_truediv (end_time s) 1000) = false ->
     PrimFloat.ltb (float_truediv (start_time s) 1000) t = true /\
     PrimFloat.leb t (float_truediv (end_time s) 1000) = true).
Proof.
  apply (proj2 (segment_containment (segment_engine 1%float gap_cues) gap_video)
           [EvSegment (cue 0 2000)] 0%nat (frame_meta 0.5%float 0)
           (drop 2 (trace (fst (fst (segment_sample (segment_engine 1%float gap_cues)
                                       gap_video)))))).
  vm_compute. reflexivity.
Defined.



Lemma queue_reader_terminal_witness :
  exists ds pre fo post,
    puts relay_schedule
      = ds ++ (pre ++ fo :: post) :: queue (queue_reader false "out" relay_schedule) /\
    is_end fo = true /\
    Forall (fun fo' => is_end fo' = false) (concat ds ++ pre) /\
    disk (queue_reader false "out" relay_schedule)
      = omap (saved_as false "out") (concat ds ++ pre).
Proof.
  refine (proj1 (queue_reader_terminal false "out" relay_schedule _) _).
  - repeat constructor; intros i Hi;
      first [discriminate Hi | eexists; vm_compute; reflexivity].
  - reflexivity.
Defined.

End Runs.

(** * Further properties *)

(** ** What a run counts and what it hands on *)

Section Accounting.

Context {T : Type} `{TimeOps T} {Img Group B G : Type}.
Context `{!@FrameBuffer T Img Group B} `{!@Gate T Img Group G}.

Implicit Types st : @run_state T Img Group B G.
Implicit Types e : @VideoSampler T B G.
Implicit Types p : @Processor T B G.
Implicit Types v : @video T Img.

Lemma submissions_app (tr1 tr2 : list (@event T Img Group)) :
  submissions (tr1 ++ tr2) = submissions tr1 ++ submissions tr2.
Proof. apply omap_app. Qed.

Lemma gated_groups_app (tr1 tr2 : list (@event T Img Group)) :
  gated_groups (tr1 ++ tr2) = gated_groups tr1 ++ gated_groups tr2.
Proof. apply omap_app. Qed.

Lemma submissions_yield (r : @GatedResult T Img) :
  submissions (match frames r with
               | [] => []
               | _ :: _ => [EvYield (Group := Group) (frames r)]
               end) = [].
Proof. by destruct (frames r). Qed.

Lemma gated_groups_yield (r : @GatedResult T Img) :
  gated_groups (match frames r with
                | [] => []
                | _ :: _ => [EvYield (Group := Group) (frames r)]
                end) = [].
Proof. by destruct (frames r). Qed.

Lemma counting_run_gate res st :
  statistic st "decoded" = Z.of_nat (length (submissions (trace st))) ->
  (statistic st "produced" = Z.of_nat (length (gated_groups (trace st))) ->
   counting (run_gate res st)).
Proof.
  unfold counting, statistic. intros Hd Hp.
  rewrite !run_gate_stat, run_gate_eq. cbn [trace].
  rewrite submissions_app, gated_groups_app, !length_app.
  change (submissions (EvGate res ?r :: ?tr)) with (submissions tr).
  change (gated_groups (EvGate res ?r :: ?tr)) with (res :: gated_groups tr).
  rewrite submissions_yield, gated_groups_yield. simpl. lia.
Qed.

Lemma counting_process_frame n fr st : counting st -> counting (fst (process_frame n fr st)).
Proof.
  intros [Hd Hp]. destruct fr as [|i|i|t i]; simpl; [done..|].
  destruct (t_ltb (t_sub t (prev_time st)) (min_frame_interval_sec (cfg (self st))))
    eqn:Hlt.
  - rewrite interval_filter_reject by done.
    unfold counting, statistic in *. simpl. by rewrite !stat_add_ne.
  - rewrite interval_filter_accept, submit_eq by done. cbn [self set_prev_time
      set_stats cfg frame_buffer gate stats prev_time trace].
    unfold statistic in *.
    destruct (snd (buffer_add _ _ _)).
    + apply counting_run_gate; unfold statistic; cbn [self stats trace].
      * rewrite stat_add_eq, stat_add_ne, submissions_app, length_app by done.
        simpl. lia.
      * rewrite !stat_add_ne, gated_groups_app, length_app by done. simpl. lia.
    + split; unfold statistic; cbn [self stats trace].
      * rewrite stat_add_eq, stat_add_ne, submissions_app, length_app by done.
        simpl. lia.
      * rewrite !stat_add_ne, gated_groups_app, length_app by done. simpl. lia.
Qed.

Lemma counting_segment s st : counting st -> counting (emit (EvSegment s) st).
Proof.
  unfold counting, statistic. simpl.
  rewrite submissions_app, gated_groups_app. simpl. by rewrite !app_nil_r.
Qed.

Lemma counting_flush_buffer st : counting st -> counting (flush_buffer st).
Proof.
  intros Hst. rewrite flush_buffer_eq. cbn zeta.
  set (st1 := flush_groups _ _).
  assert (counting st1) as [Hd Hp].
  { apply flush_groups_inv; [|done]. intros res r [Hd Hp].
    by apply counting_run_gate. }
  unfold counting, statistic in *. cbn [self stats trace].
  rewrite !stat_add_ne by done.
  rewrite submissions_app, gated_groups_app.
  change (submissions (EvGateFlush ?r :: ?tr)) with (submissions tr).
  change (gated_groups (EvGateFlush ?r :: ?tr)) with (gated_groups tr).
  rewrite submissions_app, gated_groups_app, submissions_yield, gated_groups_yield.
  simpl. by rewrite !app_nil_r.
Qed.

Lemma counting_start e : counting (start_run e).
Proof. split; by rewrite start_run_statistic. Qed.

(** X1.  At the end of every run of either engine, completed or not,
    [decoded] is the number of frames that were handed to the buffer and
    [produced] the number of gate invocations on completed groups, those of
    the final flush included; in a run of the base engine on a video that
    opens, [total] is the number of decoded frames that had a timestamp
    (those read before a frame whose [time] is [None], if there is one). *)
Theorem counters_count_events :
  (forall p v,
     statistic (fst (processor_sample p v)) "decoded"
       = Z.of_nat (length (submissions (trace (fst (processor_sample p v))))) /\
     statistic (fst (processor_sample p v)) "produced"
       = Z.of_nat (length (gated_groups (trace (fst (processor_sample p v)))))) /\
  (forall e decode,
     statistic (fst (sample e (Opens decode))) "total"
       = Z.of_nat (length (timestamps
                             (decoded_frames (decode (keyframes_only (cfg e))))))).
Proof.
  split.
  - intros p v. destruct p as [e|e]; cbn [processor_sample fst].
    + pose proof (sample_inv counting e v counting_process_frame (counting_start e))
        as Hinv.
      destruct (snd (sample e v)); [|done].
      destruct Hinv as (r & Hr & ->). by apply counting_flush_buffer.
    + pose proof (segment_sample_inv counting e v counting_process_frame
                    counting_segment (counting_start (base e))) as Hinv.
      destruct (snd (segment_sample e v)); [|done].
      destruct Hinv as (r & Hr & ->). by apply counting_flush_buffer.
  - intros e decode. rewrite sample_statistic by done. simpl. lia.
Qed.

(** *** What reaches the queue *)

Lemma processor_sample_yields p v :
  yields (trace (fst (processor_sample p v))) =
  gated_batches (gate_results (trace (fst (processor_sample p v)))) ++
  match snd (processor_sample p v) with
  | Done => [PROCESSING_DONE_ITERABLE]
  | Raised _ => []
  end.
Proof.
  destruct p as [e|e]; cbn [processor_sample fst snd].
  - pose proof (sample_inv yields_gated e v yields_gated_process_frame eq_refl)
      as Hinv.
    destruct (snd (sample e v)).
    + destruct Hinv as (r & Hr & ->). by apply flush_buffer_yields.
    + by rewrite app_nil_r.
  - assert (forall s (r : @run_state T Img Group B G),
              yields_gated r -> yields_gated (emit (EvSegment s) r)) as Hseg.
    { intros s r Hr. unfold yields_gated in *. simpl.
      rewrite yields_app, gate_results_app. simpl. by rewrite !app_nil_r. }
    pose proof (segment_sample_inv yields_gated e v yields_gated_process_frame
                  Hseg eq_refl) as Hinv.
    destruct (snd (segment_sample e v)).
    + destruct Hinv as (r & Hr & ->). by apply flush_buffer_yields.
    + by rewrite app_nil_r.
Qed.

Lemma processor_write_queue_relay p v :
  snd (fst (processor_write_queue p v))
    = fst (relay (trace (fst (processor_sample p v))) (snd (processor_sample p v)) []) /\
  snd (processor_write_queue p v)
    = snd (relay (trace (fst (processor_sample p v))) (snd (processor_sample p v)) []).
Proof.
  destruct p as [e|e]; cbn [processor_write_queue processor_sample fst snd].
  - unfold write_queue. destruct (sample e v) as [st o]. cbn [fst snd].
    by destruct (relay (trace st) o []).
  - unfold segment_write_queue. destruct (segment_sample e v) as [[st gen] o].
    cbn [fst snd]. by destruct (relay (trace st) o []).
Qed.

Lemma gated_batches_nonempty (rs : list (@GatedResult T Img)) :
  Forall (fun batch => batch <> []) (gated_batches rs).
Proof.
  induction rs as [|r rs IH]; [constructor|].
  unfold gated_batches. cbn [omap list_omap]. destruct (frames r) eqn:Hf; [done|].
  by constructor.
Qed.

Lemma processor_write_queue_puts p v :
  snd (fst (processor_write_queue p v))
    = gated_batches (gate_results (trace (fst (processor_sample p v)))) ++
      match snd (processor_write_queue p v) with
      | Done => [PROCESSING_DONE_ITERABLE]
      | Raised _ => []
      end.
Proof.
  destruct (processor_write_queue_relay p v) as [Hq Ho].
  rewrite Hq, Ho. unfold relay. rewrite processor_sample_yields.
  destruct (snd (processor_sample p v)) as [|err]; cbn [fst snd app]; [done|].
  rewrite app_nil_r. destruct (recognized err); cbn [fst snd app]; [done|].
  by rewrite app_nil_r.
Qed.

(** X2.  The batches [write_queue] puts on the queue, for either engine and
    every input, are the non-empty frame lists of the gate results of the
    run, each once and in the order of the gate's calls, followed by the
    sentinel exactly when [write_queue] returns normally.  No empty batch
    is ever put. *)
Theorem queue_holds_gate_releases p v :
  snd (fst (processor_write_queue p v))
    = gated_batches (gate_results (trace (fst (processor_sample p v)))) ++
      match snd (processor_write_queue p v) with
      | Done => [PROCESSING_DONE_ITERABLE]
      | Raised _ => []
      end /\
  Forall (fun batch => batch <> []) (snd (fst (processor_write_queue p v))).
Proof.
  split; [apply processor_write_queue_puts|].
  rewrite processor_write_queue_puts. apply Forall_app. split.
  - apply gated_batches_nonempty.
  - destruct (snd (processor_write_queue p v)); by repeat constructor.
Qed.

End Accounting.

(** ** The engine and its trace

    The engine never reads its own trace: a step appends the same events,
    and changes the engine in the same way, whatever was recorded before. *)

Section Framing.

Context {T : Type} `{TimeOps T} {Img Group B G : Type}.
Context `{!@FrameBuffer T Img Group B} `{!@Gate T Img Group G}.

Implicit Types st : @run_state T Img Group B G.
Implicit Types e : @VideoSampler T B G.
Implicit Types v : @video T Img.

Section Retrace.

Variable f : list (@event T Img Group) -> list (@event T Img Group).
Hypothesis f_transparent : transparent f.

Lemma retrace_emit ev st :
  (forall s, ev <> EvSegment s) -> retrace f (emit ev st) = emit ev (retrace f st).
Proof. intros Hev. unfold retrace, emit. cbn. f_equal. by apply f_transparent. Qed.

Lemma retrace_yield_frames r st :
  retrace f (yield_frames r st) = yield_frames r (retrace f st).
Proof. unfold yield_frames. destruct (frames r); [done|]. by apply retrace_emit. Qed.

Lemma retrace_run_gate res st :
  retrace f (run_gate res st) = run_gate res (retrace f st).
Proof.
  unfold run_gate. cbn [retrace self]. destruct (gate_call _ _) as [g' r].
  rewrite retrace_yield_frames. f_equal.
  change (retrace f (set_stats ?a (set_stats ?b ?s)))
    with (set_stats a (set_stats b (retrace f s))).
  do 2 f_equal. by rewrite retrace_emit.
Qed.

Lemma retrace_submit n t i st :
  retrace f (submit n t i st) = submit n t i (retrace f st).
Proof.
  unfold submit. cbn [retrace self set_stats frame_buffer].
  destruct (buffer_add _ _ _) as [b' [g|]].
  - rewrite retrace_run_gate. f_equal. by rewrite retrace_emit.
  - by rewrite retrace_emit.
Qed.

Lemma retrace_interval_filter n t i st :
  retrace f (interval_filter n t i st) = interval_filter n t i (retrace f st).
Proof.
  unfold interval_filter. cbn [retrace self set_stats prev_time cfg].
  destruct (t_ltb _ _); [done|]. by rewrite retrace_submit.
Qed.

Lemma retrace_process_frame n fr st :
  process_frame n fr (retrace f st)
    = (retrace f (fst (process_frame n fr st)), snd (process_frame n fr st)).
Proof.
  destruct fr; cbn [process_frame fst snd]; [done..|].
  by rewrite retrace_interval_filter.
Qed.

Lemma retrace_decode_loop fs n st :
  decode_loop fs n (retrace f st)
    = (retrace f (fst (decode_loop fs n st)), snd (decode_loop fs n st)).
Proof.
  revert n st. induction fs as [|fr fs IH]; intros n st; [done|].
  rewrite !decode_loop_cons.
  destruct fr; cbn [process_frame fst]; rewrite <- ?retrace_interval_filter, ?IH; done.
Qed.

Lemma retrace_flush_groups rs st :
  retrace f (flush_groups rs st) = flush_groups rs (retrace f st).
Proof.
  revert st. induction rs as [|[res|] rs IH]; intros st; cbn [flush_groups]; [done|..].
  - by rewrite IH, retrace_run_gate.
  - apply IH.
Qed.

Lemma retrace_flush_buffer st :
  retrace f (flush_buffer st) = flush_buffer (retrace f st).
Proof.
  unfold flush_buffer.
  replace (frame_buffer (self (retrace f st))) with (frame_buffer (self st)) by done.
  destruct (buffer_final_flush _) as [rs b'].
  replace (set_buffer b' (retrace f st)) with (retrace f (set_buffer b' st)) by done.
  rewrite <- retrace_flush_groups.
  set (st1 := flush_groups rs (set_buffer b' st)).
  replace (gate (self (retrace f st1))) with (gate (self st1)) by done.
  destruct (gate_flush _) as [g' r].
  rewrite retrace_emit by done. rewrite retrace_yield_frames. f_equal.
  change (retrace f (set_stats ?a ?s)) with (set_stats a (retrace f s)).
  f_equal. by rewrite retrace_emit.
Qed.

End Retrace.

Lemma engine_events_transparent : transparent (engine_events (T := T) (Img := Img) (Group := Group)).
Proof.
  intros tr ev Hev. unfold engine_events. rewrite omap_app. f_equal.
  destruct ev; try done. by destruct (Hev s).
Qed.

Lemma prefix_transparent (pre : list (@event T Img Group)) : transparent (app pre).
Proof. intros tr ev _. apply app_assoc. Qed.

Lemma engine_events_segment (tr : list (@event T Img Group)) s :
  engine_events (tr ++ [EvSegment s]) = engine_events tr.
Proof. unfold engine_events. rewrite omap_app. apply app_nil_r. Qed.

Lemma yields_engine_events (tr : list (@event T Img Group)) :
  yields (engine_events tr) = yields tr.
Proof.
  induction tr as [|ev tr IH]; [done|].
  destruct ev; unfold yields, engine_events in *; cbn [omap list_omap]; by rewrite ?IH.
Qed.

(** The tracker's seek changes the boundaries and the generator as
    [seek_bounds] says, and the run only by the segment pulls it records. *)
Lemma seek_segment_bounds t gen (sst : @seg_state T Img Group B G) :
  seek_bounds t gen (segment_boundary_end_sec sst) (segment_boundary_start_sec sst)
    = (fst (fst (seek_segment t gen sst)),
       segment_boundary_end_sec (snd (fst (seek_segment t gen sst))),
       segment_boundary_start_sec (snd (fst (seek_segment t gen sst))),
       snd (seek_segment t gen sst)) /\
  retrace engine_events (run (snd (fst (seek_segment t gen sst))))
    = retrace engine_events (run sst).
Proof.
  revert sst. induction gen as [|s gen IH]; intros sst.
  - cbn [seek_segment seek_bounds]. by destruct (t_gtb _ _).
  - cbn [seek_segment seek_bounds]. destruct (t_gtb _ _); [|done].
    destruct (IH (enter_segment s (run sst))) as [Hb Hr]. split; [exact Hb|].
    rewrite Hr. unfold retrace, enter_segment, emit. cbn. f_equal.
    apply engine_events_segment.
Qed.

Lemma segment_decode_loop_view fs n gen (sst : @seg_state T Img Group B G) :
  let view := segment_view fs gen (segment_boundary_end_sec sst)
                (segment_boundary_start_sec sst) in
  let masked := decode_loop (fst view) n (retrace engine_events (run sst)) in
  retrace engine_events (run (snd (fst (segment_decode_loop fs n gen sst))))
    = fst masked /\
  match snd (segment_decode_loop fs n gen sst) with
  | Next => snd masked = None /\ snd view = false
  | Break => snd masked = None /\ snd view = true
  | Raise err => snd masked = Some err
  end.
Proof.
  cbn zeta. revert n gen sst. induction fs as [|fr fs IH]; intros n gen sst; [done|].
  cbn [segment_decode_loop segment_view].
  destruct fr as [|i|i|t i]; cbn [segment_process_frame].
  - specialize (IH (S n) gen sst). destruct (segment_view fs _ _ _) as [rest stopped].
    exact IH.
  - specialize (IH (S n) gen sst). destruct (segment_view fs _ _ _) as [rest stopped].
    exact IH.
  - done.
  - destruct (seek_segment_bounds t gen sst) as [Hb Hr]. rewrite Hb.
    destruct (seek_segment t gen sst) as [[gen' sst'] stop]. cbn [fst snd] in *.
    destruct stop; cbn [fst snd decode_loop]; [by rewrite Hr|].
    destruct (t_leb t (segment_boundary_start_sec sst')) eqn:Hstart.
    + specialize (IH (S n) gen' sst'). rewrite Hr in IH.
      destruct (segment_view fs _ _ _) as [rest stopped]. exact IH.
    + specialize (IH (S n) gen' (on_run (interval_filter n t i) sst')).
      cbn [on_run run segment_boundary_end_sec segment_boundary_start_sec] in IH.
      destruct (segment_view fs _ _ _) as [rest stopped].
      cbn [fst snd decode_loop process_frame] in *.
      by rewrite <- Hr, <- (retrace_interval_filter _ engine_events_transparent).
Qed.

Lemma segment_sample_masked e s gen decode :
  let se := {| base := e; segment_generator := s :: gen |} in
  retrace engine_events (fst (fst (segment_sample se (Opens decode))))
    = fst (sample e (segment_video s gen decode)) /\
  snd (segment_sample se (Opens decode)) = snd (sample e (segment_video s gen decode)).
Proof.
  intros se. unfold segment_video. rewrite sample_opens. unfold segment_sample, se.
  cbn [segment_generator base decoded_frames failure].
  set (fs := decoded_frames (decode (keyframes_only (cfg e)))).
  destruct (segment_decode_loop_view fs 0 gen (enter_segment s (start_run e)))
    as [Hrun Hflow].
  cbn [enter_segment segment_boundary_end_sec segment_boundary_start_sec run]
    in Hrun, Hflow.
  replace (retrace engine_events (emit (EvSegment s) (start_run e)))
    with (start_run e) in Hrun, Hflow by done.
  destruct (segment_decode_loop fs 0 gen _) as [[gen' sst'] fl].
  cbn [fst snd] in Hrun, Hflow. rewrite <- Hrun.
  destruct fl as [| |err]; cbn [fst snd].
  - destruct Hflow as [-> ->]. destruct (failure _); cbn [fst snd]; [done|].
    by rewrite (retrace_flush_buffer _ engine_events_transparent).
  - destruct Hflow as [-> ->]. cbn [fst snd].
    by rewrite (retrace_flush_buffer _ engine_events_transparent).
  - by rewrite Hflow.
Qed.

(** X3.  The segment-aware engine is the base engine behind a mask.  With a
    first segment [s] pulled and [gen] left, a run of [SegmentSampler.sample]
    on a video that opens ends as [VideoSampler.sample] does on the same
    video with every frame outside its segment replaced by a null frame and
    the stream cut at the frame that finds the segments exhausted: the same
    engine state and statistics, the same events apart from the segment
    pulls, the same outcome, and [write_queue] puts the same batches. *)
Theorem segment_engine_is_masked_base e s gen decode q :
  let se := {| base := e; segment_generator := s :: gen |} in
  retrace engine_events (fst (fst (segment_sample se (Opens decode))))
    = fst (sample e (segment_video s gen decode)) /\
  snd (segment_sample se (Opens decode)) = snd (sample e (segment_video s gen decode)) /\
  snd (fst (segment_write_queue se (Opens decode) q))
    = snd (fst (write_queue e (segment_video s gen decode) q)).
Proof.
  intros se. destruct (segment_sample_masked e s gen decode) as [Hst Ho].
  fold se in Hst, Ho.
  split; [done|]. split; [done|].
  unfold segment_write_queue, write_queue.
  destruct (segment_sample se (Opens decode)) as [[st gen'] o].
  destruct (sample e (segment_video s gen decode)) as [st' o'].
  cbn [fst snd] in Hst, Ho. subst o' st'.
  unfold relay. cbn [retrace trace]. rewrite yields_engine_events.
  destruct o as [|err]; [done|]. by destruct (recognized err).
Qed.

Lemma flush_buffer_framed st :
  flush_buffer st = retrace (app (trace st)) (flush_buffer (clear_trace st)).
Proof.
  rewrite (retrace_flush_buffer _ (prefix_transparent (trace st))). f_equal.
  unfold retrace, clear_trace. cbn. rewrite app_nil_r. by destruct st.
Qed.

(** X4.  A recognised decode error costs the frames still held.  When
    decoding, of frames whose [time] is never [None], fails with one of the
    two errors [write_queue] catches, the queue receives the batches
    released before the error and then the sentinel; [flush_buffer] is not run, so what the same frames give
    without the error, namely those batches, then the batches of the final
    flush of the buffer and the gate as the error found them, ending in the
    sentinel, is cut short, and the engine keeps the unflushed buffer. *)
Theorem decode_error_loses_held_frames e (fs : bool -> list (@av_frame T Img)) err q :
  recognized err = true ->
  times_readable (fs (keyframes_only (cfg e))) ->
  let failing := Opens (fun k => {| decoded_frames := fs k; failure := Some err |}) in
  let clean := Opens (fun k => {| decoded_frames := fs k; failure := None |}) in
  let st := fst (sample e failing) in
  write_queue e failing q
    = (self st, q ++ yields (trace st) ++ [PROCESSING_DONE_ITERABLE], Done) /\
  write_queue e clean q
    = (self (flush_buffer (clear_trace st)),
       q ++ yields (trace st) ++ yields (trace (flush_buffer (clear_trace st))),
       Done) /\
  exists flushed,
    yields (trace (flush_buffer (clear_trace st)))
      = flushed ++ [PROCESSING_DONE_ITERABLE].
Proof.
  intros Herr Hread failing clean st.
  assert (sample e failing
          = (fst (decode_loop (fs (keyframes_only (cfg e))) 0 (start_run e)),
             Raised err)) as Hfail.
  { unfold failing. rewrite sample_opens. cbn [decoded_frames failure].
    by rewrite decode_loop_readable. }
  assert (sample e clean
          = (flush_buffer (fst (decode_loop (fs (keyframes_only (cfg e))) 0
                                  (start_run e))), Done)) as Hclean.
  { unfold clean. rewrite sample_opens. cbn [decoded_frames failure].
    by rewrite decode_loop_readable. }
  assert (st = fst (decode_loop (fs (keyframes_only (cfg e))) 0 (start_run e)))
    as Hst by (unfold st; by rewrite Hfail).
  clearbody st. unfold write_queue. rewrite Hfail, Hclean, <- Hst.
  unfold relay. rewrite Herr. cbn [fst snd].
  split; [by rewrite <- app_assoc|]. split.
  - rewrite (flush_buffer_framed st). cbn [retrace self trace].
    by rewrite yields_app.
  - rewrite flush_buffer_eq. cbn [trace]. rewrite yields_app.
    destruct (frames _); cbn.
    + by eexists.
    + eexists (_ ++ [_]). rewrite <- app_assoc. reflexivity.
Qed.

(** *** Where the submitted frames come from *)

Lemma submissions_engine_events (tr : list (@event T Img Group)) :
  submissions (engine_events tr) = submissions tr.
Proof.
  induction tr as [|ev tr IH]; [done|].
  destruct ev; unfold submissions, engine_events in *; cbn [omap list_omap];
    by rewrite ?IH.
Qed.

Lemma run_gate_submissions res st :
  submissions (trace (run_gate res st)) = submissions (trace st).
Proof.
  rewrite run_gate_eq. cbn [trace]. rewrite submissions_app.
  change (EvGate res ?r :: ?l) with ([EvGate (Img := Img) res r] ++ l).
  rewrite submissions_app, submissions_yield. apply app_nil_r.
Qed.

Lemma flush_buffer_submissions st :
  submissions (trace (flush_buffer st)) = submissions (trace st).
Proof.
  rewrite flush_buffer_eq. cbn [trace]. rewrite submissions_app.
  assert (forall rs st', submissions (trace (flush_groups rs st'))
                         = submissions (trace st')) as Hgroups.
  { intros rs st'.
    by apply (flush_groups_inv
                (fun r => submissions (trace r) = submissions (trace st')));
      [intros res r <-; apply run_gate_submissions|]. }
  rewrite Hgroups. cbn [set_buffer trace].
  destruct (frames _); cbn; apply app_nil_r.
Qed.

Lemma process_frame_submissions n fr st :
  submissions (trace (fst (process_frame n fr st))) = submissions (trace st) \/
  exists t i, fr = Timed t i /\
    submissions (trace (fst (process_frame n fr st)))
      = submissions (trace st) ++ [(i, frame_meta t n)].
Proof.
  destruct fr as [|i|i|t i]; cbn [process_frame fst]; [by left..|].
  unfold interval_filter. destruct (t_ltb _ _); [by left|].
  right. exists t, i. split; [done|]. rewrite submit_eq.
  destruct (snd (buffer_add _ _ _)); rewrite ?run_gate_submissions;
    cbn [trace set_prev_time set_stats]; by rewrite submissions_app.
Qed.

Lemma decode_loop_placed (fs seen todo : list (@av_frame T Img)) st ns :
  fs = seen ++ todo ->
  StronglySorted lt ns -> Forall (fun n => n < length seen) ns ->
  Forall2 (fun n sub => submission_at fs n = Some sub) ns (submissions (trace st)) ->
  exists ns',
    StronglySorted lt ns' /\
    Forall2 (fun n sub => submission_at fs n = Some sub) ns'
      (submissions (trace (fst (decode_loop todo (length seen) st)))).
Proof.
  revert seen st ns. induction todo as [|fr todo IH]; intros seen st ns Hfs Hs Hb Hp.
  { by exists ns. }
  rewrite decode_loop_cons.
  assert (fs !! length seen = Some fr) as Hfr.
  { rewrite Hfs. by rewrite lookup_app_r, Nat.sub_diag by lia. }
  replace (S (length seen)) with (length (seen ++ [fr]))
    by (rewrite length_app; simpl; lia).
  assert (forall i, fr = NullTime i ->
            exists ns',
              StronglySorted lt ns' /\
              Forall2 (fun n sub => submission_at fs n = Some sub) ns'
                (submissions (trace (fst (st, Some TypeError))))) as Hnull.
  { intros i _. by exists ns. }
  destruct (process_frame_submissions (length seen) fr st)
    as [Heq|(t & i & -> & Heq)].
  - assert (exists ns',
              StronglySorted lt ns' /\
              Forall2 (fun n sub => submission_at fs n = Some sub) ns'
                (submissions (trace (fst (decode_loop todo (length (seen ++ [fr]))
                                            (fst (process_frame (length seen) fr st)))))))
      as Hgo; [|destruct fr; eauto].
    apply (IH (seen ++ [fr]) _ ns); [by rewrite <- app_assoc|done| |by rewrite Heq].
    eapply Forall_impl; [exact Hb|]. intros n Hn. cbn beta in Hn. rewrite length_app. simpl. lia.
  - apply (IH (seen ++ [Timed t i]) _ (ns ++ [length seen])).
    + by rewrite <- app_assoc.
    + apply StronglySorted_app_2; [|done|repeat constructor].
      intros n1 n2 Hn1 ->%list_elem_of_singleton.
      rewrite Forall_forall in Hb. by apply Hb.
    + apply Forall_app. split.
      * eapply Forall_impl; [exact Hb|]. intros n Hn. cbn beta in Hn. rewrite length_app. simpl. lia.
      * constructor; [|constructor]. rewrite length_app. simpl. lia.
    + rewrite Heq. apply Forall2_app; [done|]. constructor; [|constructor].
      unfold submission_at. by rewrite Hfr.
Qed.

Lemma segment_view_lookup (fs : list (@av_frame T Img)) gen end_sec start_sec n t i :
  fst (segment_view fs gen end_sec start_sec) !! n = Some (Timed t i) ->
  fs !! n = Some (Timed t i).
Proof.
  revert gen end_sec start_sec n.
  induction fs as [|fr fs IH]; intros gen end_sec start_sec n; [done|].
  cbn [segment_view]. destruct fr as [|j|j|t' j].
  - specialize (IH gen end_sec start_sec).
    destruct (segment_view fs _ _ _) as [rest stopped]. destruct n; [done|apply IH].
  - specialize (IH gen end_sec start_sec).
    destruct (segment_view fs _ _ _) as [rest stopped]. destruct n; [done|apply IH].
  - destruct n as [|[|n]]; done.
  - destruct (seek_bounds t' gen end_sec start_sec) as [[[gen' e'] s'] stop].
    destruct stop; [done|]. specialize (IH gen' e' s').
    destruct (segment_view fs _ _ _) as [rest stopped].
    destruct n; [|apply IH]. cbn. by destruct (t_leb _ _).
Qed.

(** X5.  Every frame handed to the buffer, in a run of either engine on a
    video that opens, is a timestamped frame of the decode, submitted under
    its own time as [frame_time] and its position in the decode as
    [frame_indx], null and untimed frames counted; the frames are submitted
    in decode order, none twice. *)
Theorem submissions_in_decode_order (p : @Processor T B G) decode :
  let fs := decoded_frames (decode (keyframes_only (cfg (processor_engine p)))) in
  exists ns,
    StronglySorted lt ns /\
    Forall2 (fun n sub => submission_at fs n = Some sub) ns
      (submissions (trace (fst (processor_sample p (Opens (Img := Img) decode))))).
Proof.
  intros fs.
  assert (forall e (decode' : bool -> @decode_stream T Img),
            exists ns,
              StronglySorted lt ns /\
              Forall2 (fun n sub =>
                         submission_at
                           (decoded_frames (decode' (keyframes_only (cfg e)))) n
                         = Some sub)
                ns (submissions (trace (fst (sample e (Opens decode')))))) as Hbase.
  { intros e decode'. rewrite sample_opens.
    destruct (decode_loop_placed (decoded_frames (decode' (keyframes_only (cfg e))))
                [] _ (start_run e) [] eq_refl)
      as (ns & Hs & Hp); [constructor..|].
    exists ns. split; [done|]. cbn [length] in Hp.
    destruct (snd (decode_loop _ _ _)); [|destruct (failure _)]; cbn [fst];
      by rewrite ?flush_buffer_submissions. }
  destruct p as [e|[e [|s gen]]]; cbn [processor_sample processor_engine fst base] in *.
  - apply Hbase.
  - exists []. split; constructor.
  - destruct (segment_sample_masked e s gen decode) as [Hst _].
    cbn zeta in Hst. apply (f_equal (fun r => submissions (trace r))) in Hst.
    cbn [retrace trace] in Hst. rewrite submissions_engine_events in Hst.
    rewrite Hst. destruct (Hbase e (fun k =>
        let view := segment_view (decoded_frames (decode k)) gen
                      (t_truediv (end_time s) 1000) (t_truediv (start_time s) 1000) in
        {| decoded_frames := fst view;
           failure := if snd view then None else failure (decode k) |}))
      as (ns & Hs & Hp).
    exists ns. split; [done|]. eapply Forall2_impl; [exact Hp|].
    intros n sub. cbn [decoded_frames]. unfold submission_at, fs.
    destruct (fst (segment_view _ _ _ _) !! n) as [[|j|j|t i]|] eqn:Hn; try done.
    by rewrite (segment_view_lookup _ _ _ _ _ _ _ Hn).
Qed.

End Framing.

(** ** The worker *)

Section Launch.

Context {T : Type} `{TimeOps T} {Img Group B G : Type}.
Context `{!@FrameBuffer T Img Group B} `{!@Gate T Img Group G}.

Implicit Types w : @Worker T Img B G.
Implicit Types v : @video T Img.
Implicit Types r : @reader_state T Img.
Implicit Types pending arrived : list (list (@FrameObject T Img)).

Lemma interleave_puts pending turns :
  puts (interleave pending turns) = take (producer_turns turns) pending.
Proof.
  revert pending. induction turns as [|[|] turns IH]; intros pending;
    cbn [interleave producer_turns].
  - by rewrite take_0.
  - destruct pending as [|batch pending]; [by rewrite IH, !take_nil|].
    change (puts (Put batch :: ?s)) with (batch :: puts s). by rewrite IH.
  - change (puts (Poll :: ?s)) with (puts s). apply IH.
Qed.

Lemma interleave_consumer pending turns n :
  interleave pending (turns ++ repeat ConsumerTurn n)
    = interleave pending turns ++ repeat Poll n.
Proof.
  revert pending. induction turns as [|[|] turns IH]; intros pending;
    cbn [interleave app].
  - induction n as [|n IHn]; [done|]. cbn [repeat interleave]. by rewrite IHn.
  - destruct pending; by rewrite IH.
  - by rewrite IH.
Qed.

Lemma producer_turns_consumer turns n :
  producer_turns (turns ++ repeat ConsumerTurn n) = producer_turns turns.
Proof.
  induction turns as [|[|] turns IH]; cbn [producer_turns app]; [|by rewrite IH|done].
  induction n as [|n IHn]; [done|apply IHn].
Qed.

Lemma launch_reader_fresh w output_path (schedule : list (@action T Img)) :
  worker_q w = [] ->
  launch_reader w output_path schedule
    = queue_reader (worker_devnull w) output_path schedule.
Proof. unfold launch_reader, queue_reader. by intros ->. Qed.

(** Once the terminal object has arrived, as many loop turns as there are
    batches in the queue make the reader return. *)
Lemma polls_return devnull output_path arrived n r :
  Forall (Forall carries_frame_time) arrived ->
  Exists (Exists (fun fo => is_end fo = true)) arrived ->
  reader_inv devnull output_path arrived r ->
  (status r = Polling -> length (queue r) <= n) ->
  status (fold_left (act devnull output_path) (repeat Poll n) r) = Returned /\
  reader_inv devnull output_path arrived
    (fold_left (act devnull output_path) (repeat Poll n) r).
Proof.
  intros Hwf Hend. revert r. induction n as [|n IH]; intros r Hinv Hlen.
  - cbn [repeat fold_left]. split; [|done].
    unfold reader_inv in Hinv. destruct (status r) eqn:Hs; [|done..].
    destruct Hinv as (ds & -> & Hlive & _). specialize (Hlen eq_refl).
    destruct (queue r); [|simpl in Hlen; lia]. rewrite app_nil_r in Hend.
    apply Exists_exists in Hend as (batch & Hin & Hb).
    apply Exists_exists in Hb as (fo & Hfo & Hfo_end).
    rewrite Forall_forall in Hlive.
    rewrite (Hlive fo) in Hfo_end; [done|].
    apply list_elem_of_In, in_concat. exists batch.
    split; by apply list_elem_of_In.
  - cbn [repeat fold_left act]. apply IH; [by apply reader_inv_poll|].
    unfold poll. destruct (status r) eqn:Hs; [|by rewrite Hs..].
    specialize (Hlen eq_refl).
    destruct (queue r) as [|batch rest] eqn:Hq; [rewrite Hq; simpl; lia|].
    destruct (read_batch _ _ _ _). simpl in *. lia.
Qed.

(** Without a terminal object among the batches the reader only polls. *)
Lemma reader_polls_unmarked devnull output_path arrived r :
  Forall unmarked arrived ->
  reader_inv devnull output_path arrived r -> status r = Polling.
Proof.
  intros Hun Hinv. unfold reader_inv in Hinv.
  destruct (status r); [done| |done].
  destruct Hinv as (ds & pre & fo & post & -> & Hend & _).
  apply Forall_app in Hun as [_ Hun]. apply Forall_cons in Hun as [Hun _].
  apply Forall_app in Hun as [_ Hun]. apply Forall_cons in Hun as [Hfo _].
  congruence.
Qed.

(** When the sentinel is the only batch with a terminal object, the reader
    that has returned has emptied the queue and saved every batch before
    the sentinel. *)
Lemma returned_after_sentinel devnull output_path pending r :
  Forall unmarked pending ->
  reader_inv devnull output_path (pending ++ [PROCESSING_DONE_ITERABLE]) r ->
  status r = Returned ->
  queue r = [] /\ disk r = omap (saved_as devnull output_path) (concat pending).
Proof.
  intros Hun Hinv Hs. unfold reader_inv in Hinv. rewrite Hs in Hinv.
  destruct Hinv as (ds & pre & fo & post & Harr & Hend & _ & Hdisk).
  assert (length pending <= length ds) as Hlen.
  { destruct (decide (length ds < length pending)) as [Hlt|]; [|lia].
    apply (f_equal (fun l => l !! length ds)) in Harr.
    rewrite lookup_app_l in Harr by done.
    rewrite lookup_app_r, Nat.sub_diag in Harr by lia. cbn in Harr.
    rewrite Forall_forall in Hun.
    assert (unmarked (pre ++ fo :: post)) as Hb.
    { apply Hun. by eapply list_elem_of_lookup_2. }
    apply Forall_app in Hb as [_ Hb]. apply Forall_cons in Hb as [Hfo _].
    congruence. }
  pose proof (f_equal length Harr) as Hl. rewrite !length_app in Hl.
  cbn [length] in Hl.
  apply app_inj_1 in Harr as [-> Harr]; [|lia].
  destruct (queue r); [|done]. split; [done|].
  destruct pre as [|fo' pre]; [by rewrite Hdisk, app_nil_r|].
  by destruct pre.
Qed.

Lemma sentinel_well_formed :
  Forall carries_frame_time (PROCESSING_DONE_ITERABLE (T := T) (Img := Img)).
Proof. repeat constructor. intros i. discriminate. Qed.

Lemma processor_write_queue_stats (p : @Processor T B G) v :
  processor_stats (fst (fst (processor_write_queue p v)))
    = stats (self (fst (processor_sample p v))).
Proof.
  destruct p as [e|e]; cbn [processor_write_queue processor_sample fst].
  - unfold write_queue. destruct (sample e v) as [st o].
    by destruct (relay (trace st) o []).
  - unfold segment_write_queue. destruct (segment_sample e v) as [[st gen] o].
    by destruct (relay (trace st) o []).
Qed.

(** X6.  A launch runs to completion.  On a worker with an empty queue, when
    the producer thread ends normally (the video samples, or fails with a
    recognised error) and the frames the gate released carry a [frame_time]
    and no [end] mark, a launch whose producer gets to put all its batches
    and whose reader then gets a loop turn for each returns: it has saved
    exactly the frames the gate released, in order, each once (none in
    discard mode), it has made the output directory if a path was given,
    and it leaves the queue empty for the next launch; the statistics it
    prints from are those of the run. *)
Theorem launch_saves_released_frames w v output_path directories ts n :
  worker_q w = [] ->
  negb (String.eqb output_path "") && worker_devnull w = false ->
  snd (processor_write_queue (processor w) v) = Done ->
  let released :=
    gated_batches (gate_results (trace (fst (processor_sample (processor w) v)))) in
  Forall unmarked released ->
  Forall (Forall carries_frame_time) released ->
  length released < producer_turns ts ->
  length released < n ->
  launch w v output_path directories (ts ++ repeat ConsumerTurn n)
    = LaunchReturned
        {| worker_cfg := worker_cfg w;
           processor := fst (fst (processor_write_queue (processor w) v));
           worker_q := [];
           worker_devnull := worker_devnull w |}
        (if String.eqb output_path "" then directories
         else {[output_path]} ∪ directories)
        (omap (saved_as (worker_devnull w) output_path) (concat released)) /\
  processor_stats (fst (fst (processor_write_queue (processor w) v)))
    = stats (self (fst (processor_sample (processor w) v))).
Proof.
  intros Hq Hguard Hdone released Hun Hwf Hts Hn.
  split; [|apply processor_write_queue_stats].
  unfold launch. rewrite Hguard.
  pose proof (processor_write_queue_puts (processor w) v) as Hputs.
  rewrite Hdone in Hputs. fold released in Hputs.
  destruct (processor_write_queue (processor w) v) as [[p' pending] o].
  cbn [fst snd] in Hputs. subst pending.
  set (pending := released ++ [PROCESSING_DONE_ITERABLE]).
  assert (length pending = S (length released)) as Hlen.
  { unfold pending. rewrite length_app. simpl. lia. }
  rewrite launch_reader_fresh, interleave_consumer by done.
  unfold queue_reader. rewrite fold_left_app.
  fold (queue_reader (worker_devnull w) output_path (interleave pending ts)).
  set (r0 := queue_reader _ _ _).
  assert (Forall (Forall carries_frame_time) pending) as Hwf'.
  { apply Forall_app. split; [done|]. constructor; [|constructor].
    apply sentinel_well_formed. }
  assert (puts (interleave pending ts) = pending) as Hp.
  { rewrite interleave_puts. apply firstn_all2. lia. }
  assert (reader_inv (worker_devnull w) output_path pending r0) as Hinv.
  { rewrite <- Hp. apply queue_reader_inv. by rewrite Hp. }
  destruct (polls_return (worker_devnull w) output_path pending n r0 Hwf')
    as [Hs Hinv']; [|done| |].
  { apply Exists_app. right. constructor. constructor.
    unfold is_end, PROCESSING_DONE. simpl. by rewrite lookup_singleton_eq. }
  { intros Hs. unfold reader_inv in Hinv. rewrite Hs in Hinv.
    destruct Hinv as (ds & Harr & _). apply (f_equal length) in Harr.
    rewrite length_app in Harr. lia. }
  rewrite Hs. rewrite producer_turns_consumer.
  destruct (returned_after_sentinel _ _ released _ Hun Hinv' Hs) as [-> ->].
  destruct (length pending <=? producer_turns ts)%nat eqn:Hle; [done|].
  apply Nat.leb_gt in Hle. lia.
Qed.

(** X7.  A producer that dies leaves the launch hanging.  When the producer
    thread ends with an exception [write_queue] does not catch (a missing
    video file, an empty segment sequence, ...), no sentinel is put, and
    under every schedule of the two threads, however long, the launch
    neither returns nor raises: its reader is still polling.  The frames
    the gate released carry a [frame_time] and no [end] mark. *)
Theorem launch_hangs_without_sentinel w v output_path directories err turns :
  worker_q w = [] ->
  negb (String.eqb output_path "") && worker_devnull w = false ->
  snd (processor_write_queue (processor w) v) = Raised err ->
  let released :=
    gated_batches (gate_results (trace (fst (processor_sample (processor w) v)))) in
  Forall unmarked released ->
  Forall (Forall carries_frame_time) released ->
  exists r, launch w v output_path directories turns = LaunchRunning r /\
            status r = Polling.
Proof.
  intros Hq Hguard Hraised released Hun Hwf. unfold launch. rewrite Hguard.
  pose proof (processor_write_queue_puts (processor w) v) as Hputs.
  rewrite Hraised in Hputs. fold released in Hputs. rewrite app_nil_r in Hputs.
  destruct (processor_write_queue (processor w) v) as [[p' pending] o].
  cbn [fst snd] in Hputs. subst pending.
  rewrite launch_reader_fresh by done.
  set (r := queue_reader _ _ _).
  assert (status r = Polling) as Hs.
  { apply (reader_polls_unmarked (worker_devnull w) output_path
             (puts (interleave released turns))).
    - rewrite interleave_puts. by apply Forall_take.
    - apply queue_reader_inv. rewrite interleave_puts. by apply Forall_take. }
  rewrite Hs. by exists r.
Qed.

Lemma read_batch_discard output_path (batch : list (@FrameObject T Img)) d :
  fst (read_batch true output_path batch d) = d /\
  (snd (read_batch true output_path batch d) = Polling \/
   snd (read_batch true output_path batch d) = Returned).
Proof.
  induction batch as [|fo batch IH]; cbn [read_batch]; [by split; [|left]|].
  destruct (is_end fo); [by split; [|right]|].
  by destruct (frame fo) as [[i|]|].
Qed.

Lemma reader_discard output_path (schedule : list (@action T Img)) r :
  disk r = [] -> (forall e, status r <> Failed e) ->
  disk (fold_left (act true output_path) schedule r) = [] /\
  forall e, status (fold_left (act true output_path) schedule r) <> Failed e.
Proof.
  revert r. induction schedule as [|a schedule IH]; intros r Hd Hs; [done|].
  cbn [fold_left]. apply IH.
  - destruct a as [batch|]; [done|]. cbn [act]. unfold poll.
    destruct (status r); [|done..]. destruct (queue r) as [|batch rest]; [done|].
    destruct (read_batch_discard output_path batch (disk r)) as [Hfst _].
    destruct (read_batch _ _ _ _). cbn in *. congruence.
  - destruct a as [batch|]; [done|]. cbn [act]. unfold poll.
    destruct (status r) eqn:Hst; [|by rewrite Hst..].
    destruct (queue r) as [|batch rest]; [by rewrite Hst|].
    destruct (read_batch_discard output_path batch (disk r)) as [_ Hsnd].
    destruct (read_batch _ _ _ _). cbn in *. intros e. destruct Hsnd; congruence.
Qed.

(** X8.  Discard mode writes nothing.  A launch of a worker made with
    [devnull] set refuses an output path with [ValueError] before anything
    is started; without an output path it makes no directory, saves no
    file and never raises, whatever the video, the schedule of the threads
    and the frame objects on the queue, with or without a [frame_time]. *)
Theorem discard_mode_writes_nothing w v output_path directories turns :
  worker_devnull w = true ->
  (output_path <> "" ->
   launch w v output_path directories turns = LaunchRefused) /\
  match launch w v "" directories turns with
  | LaunchRefused => False
  | LaunchRaised _ _ => False
  | LaunchRunning r => disk r = []
  | LaunchReturned _ directories' files => directories' = directories /\ files = []
  end.
Proof.
  intros Hdev. split.
  - intros Hpath. unfold launch. rewrite Hdev.
    by destruct (String.eqb_spec output_path "").
  - unfold launch. rewrite Hdev. cbn [String.eqb negb andb].
    destruct (processor_write_queue (processor w) v) as [[p' pending] o].
    unfold launch_reader. rewrite Hdev.
    destruct (reader_discard "" (interleave pending turns)
                {| queue := worker_q w; disk := []; status := Polling |})
      as [Hd Hs]; [done..|].
    destruct (status _) eqn:Hst; [done| |by destruct (Hs e)].
    by destruct (_ <=? _)%nat.
Qed.

Lemma read_batch_missing_key output_path (pre post : list (@FrameObject T Img))
    fo i d :
  unmarked pre -> Forall carries_frame_time pre ->
  is_end fo = false -> frame fo = Some (PILImage i) ->
  metadata fo !! "frame_time" = None ->
  read_batch false output_path (pre ++ fo :: post) d
    = (d ++ omap (saved_as false output_path) pre, Failed KeyError).
Proof.
  intros Hun Hwf Hend Hframe Hkey. revert d.
  induction pre as [|fo' pre IH]; intros d; cbn [app read_batch].
  { rewrite Hend, Hframe, Hkey. cbn. by rewrite app_nil_r. }
  apply Forall_cons in Hun as [Hfo' Hun]. apply Forall_cons in Hwf as [Hwf' Hwf].
  rewrite Hfo'. cbn [omap list_omap]. unfold saved_as at 2. cbn.
  destruct (frame fo') as [[j|]|] eqn:Hfr; [|by apply IH..].
  destruct (Hwf' j Hfr) as [ft Hft]. rewrite Hft.
  rewrite IH by done. by rewrite <- app_assoc.
Qed.

Lemma failed_for_good devnull output_path (schedule : list (@action T Img)) r e :
  status r = Failed e ->
  status (fold_left (act devnull output_path) schedule r) = Failed e /\
  disk (fold_left (act devnull output_path) schedule r) = disk r.
Proof.
  revert r. induction schedule as [|a schedule IH]; intros r Hs; [done|].
  cbn [fold_left]. destruct a as [batch|]; cbn [act].
  - destruct (IH {| queue := queue r ++ [batch]; disk := disk r; status := status r |})
      as [-> ->]; done.
  - unfold poll. rewrite Hs. by apply IH.
Qed.

(** X9.  A frame without [frame_time] stops the reader.  Outside discard
    mode, when the reader dequeues a batch in which an image-carrying
    object lacks the [frame_time] key and no object before it is marked
    [end], it raises [KeyError] at that object: the frames before it in the
    batch are saved, nothing after it is, and whatever is put or polled
    later the reader never returns. *)
Theorem reader_fails_on_missing_frame_time output_path
    (schedule later : list (@action T Img)) pre fo post rest i :
  let r := queue_reader false output_path schedule in
  status r = Polling ->
  queue r = (pre ++ fo :: post) :: rest ->
  unmarked pre -> Forall carries_frame_time pre ->
  is_end fo = false -> frame fo = Some (PILImage i) ->
  metadata fo !! "frame_time" = None ->
  let r' := queue_reader false output_path (schedule ++ Poll :: later) in
  status r' = Failed KeyError /\
  disk r' = disk r ++ omap (saved_as false output_path) pre.
Proof.
  intros r Hs Hq Hun Hwf Hend Hframe Hkey r'. unfold r', queue_reader.
  rewrite fold_left_app. fold (queue_reader false output_path schedule). fold r.
  cbn [fold_left act].
  assert (poll false output_path r
          = {| queue := rest;
               disk := disk r ++ omap (saved_as false output_path) pre;
               status := Failed KeyError |}) as ->.
  { unfold poll. rewrite Hs, Hq.
    by rewrite (read_batch_missing_key output_path pre post fo i). }
  by apply failed_for_good.
Qed.

End Launch.

(** ** What the interval filter keeps *)

Section Keeping.

Context {T : Type} `{TimeOps T} {Img Group B G : Type}.
Context `{!@FrameBuffer T Img Group B} `{!@Gate T Img Group G}.

Implicit Types e : @VideoSampler T B G.

Lemma accepted_all (m p : T) ts :
  (forall t, head ts = Some t -> t_ltb (t_sub t p) m = false) ->
  consecutive (fun a b => t_ltb (t_sub b a) m = false) ts ->
  accepted m p ts = ts.
Proof.
  revert p. induction ts as [|t ts IH]; intros p Hhead Hcons; [done|].
  cbn [accepted]. rewrite (Hhead t eq_refl). f_equal. apply IH.
  - intros t' Ht'. destruct ts as [|t'' ts]; [done|]. injection Ht' as ->.
    by apply (Hcons 0%nat t t').
  - intros i a b Ha Hb. by apply (Hcons (S i) a b).
Qed.

Lemma accepted_idem (m p : T) ts :
  accepted m p (accepted m p ts) = accepted m p ts.
Proof.
  revert p. induction ts as [|t ts IH]; intros p; [done|].
  cbn [accepted]. destruct (t_ltb (t_sub t p) m) eqn:Htest; [apply IH|].
  cbn [accepted]. rewrite Htest. f_equal. apply IH.
Qed.

(** X10.  Sampling is stable.  A video whose timestamped frames are the
    frames a first run submitted is, by an engine with the same minimum
    interval, submitted whole: no frame that passed the filter once is
    rejected when the output is sampled again, and [decoded] equals
    [total]. *)
Theorem sampling_is_stable e e' decode decode' :
  min_frame_interval_sec (cfg e') = min_frame_interval_sec (cfg e) ->
  timestamps (decoded_frames (decode' (keyframes_only (cfg e'))))
    = submitted_times (trace (fst (sample e (Opens decode)))) ->
  submitted_times (trace (fst (sample e' (Opens decode'))))
    = submitted_times (trace (fst (sample e (Opens decode)))) /\
  statistic (fst (sample e' (Opens decode'))) "decoded"
    = statistic (fst (sample e' (Opens decode'))) "total".
Proof.
  intros Hmin Hts.
  assert (accepted (min_frame_interval_sec (cfg e')) (t_of_int (-10))
            (timestamps (decoded_frames (decode' (keyframes_only (cfg e')))))
          = timestamps (decoded_frames (decode' (keyframes_only (cfg e'))))) as Hacc.
  { rewrite Hts, Hmin, sample_submitted. apply accepted_idem. }
  split.
  - by rewrite (sample_submitted e'), Hacc.
  - rewrite !sample_statistic by done. rewrite Hacc. simpl. lia.
Qed.

(** X11.  Frames that pass the filter one after the other are all kept.
    When each timestamped frame of the decode passes the filter's test
    against the frame just before it (their difference, as the engine
    computes it, is not below [min_frame_interval_sec]), and the first one
    passes it against the initial [prev_time = -10], the engine submits
    every one of them and [decoded] equals [total]: the frame the filter
    measures against is then always the frame before.  The test is the
    engine's own, whatever the arithmetic. *)
Theorem spaced_frames_all_kept e decode :
  let ts := timestamps (decoded_frames (decode (keyframes_only (cfg e)))) in
  (forall t, head ts = Some t ->
     t_ltb (t_sub t (t_of_int (-10))) (min_frame_interval_sec (cfg e)) = false) ->
  consecutive (fun a b => t_ltb (t_sub b a) (min_frame_interval_sec (cfg e)) = false)
    ts ->
  submitted_times (trace (fst (sample e (Opens decode)))) = ts /\
  statistic (fst (sample e (Opens decode))) "decoded"
    = statistic (fst (sample e (Opens decode))) "total".
Proof.
  intros ts Hhead Hcons.
  assert (accepted (min_frame_interval_sec (cfg e)) (t_of_int (-10)) ts = ts) as Hacc
    by (by apply accepted_all).
  split.
  - by rewrite sample_submitted.
  - rewrite !sample_statistic by done. fold ts. rewrite Hacc. simpl. lia.
Qed.

End Keeping.

(** ** The reader and the interleaving *)

Section Interleaving.

Context {T : Type} `{TimeOps T} {Img : Type}.

Implicit Types r : @reader_state T Img.

(** A list splits in one way only at its first element with a property. *)
Lemma first_split {A} (P : A -> Prop) (l1 l2 r1 r2 : list A) x1 x2 :
  l1 ++ x1 :: r1 = l2 ++ x2 :: r2 ->
  Forall (fun a => ~ P a) l1 -> P x1 ->
  Forall (fun a => ~ P a) l2 -> P x2 ->
  l1 = l2 /\ x1 = x2 /\ r1 = r2.
Proof.
  revert l2. induction l1 as [|a l1 IH]; intros l2 Heq Hl1 Hx1 Hl2 Hx2.
  - destruct l2 as [|b l2]; [by injection Heq as -> ->|].
    injection Heq as -> _. apply Forall_cons in Hl2 as [Hb _]. by destruct Hb.
  - destruct l2 as [|b l2].
    + injection Heq as -> _. apply Forall_cons in Hl1 as [Ha _]. by destruct Ha.
    + injection Heq as -> Heq. apply Forall_cons in Hl1 as [_ Hl1].
      apply Forall_cons in Hl2 as [_ Hl2].
      destruct (IH l2 Heq Hl1 Hx1 Hl2 Hx2) as (-> & -> & ->). done.
Qed.

Lemma unmarked_batches (ds : list (list (@FrameObject T Img))) :
  unmarked (concat ds) ->
  Forall (fun batch => ~ Exists (fun fo => is_end fo = true) batch) ds.
Proof.
  intros Hun. apply Forall_forall. intros batch Hin Hex.
  apply Exists_exists in Hex as (fo & Hfo & Hend).
  unfold unmarked in Hun. rewrite Forall_forall in Hun.
  rewrite (Hun fo) in Hend; [done|].
  apply list_elem_of_In, in_concat. exists batch. split; by apply list_elem_of_In.
Qed.

(** X12.  What the reader does is settled by what is put, not by when.  Two
    runs of the reader over the same batches, put and polled under any two
    interleavings, that have both returned have saved the same files in
    the same order and left the same batches on the queue.  Frame objects
    that carry an image carry a [frame_time]. *)
Theorem reader_schedule_independent devnull output_path
    (schedule1 schedule2 : list (@action T Img)) :
  Forall (Forall carries_frame_time) (puts schedule1) ->
  puts schedule1 = puts schedule2 ->
  let r1 := queue_reader devnull output_path schedule1 in
  let r2 := queue_reader devnull output_path schedule2 in
  status r1 = Returned -> status r2 = Returned ->
  disk r1 = disk r2 /\ queue r1 = queue r2.
Proof.
  intros Hwf Hputs r1 r2 Hs1 Hs2.
  pose proof (queue_reader_inv devnull output_path schedule1 Hwf) as Hinv1.
  rewrite Hputs in Hwf.
  pose proof (queue_reader_inv devnull output_path schedule2 Hwf) as Hinv2.
  fold r1 in Hinv1. fold r2 in Hinv2. unfold reader_inv in Hinv1, Hinv2.
  rewrite Hs1 in Hinv1. rewrite Hs2 in Hinv2. rewrite <- Hputs in Hinv2.
  destruct Hinv1 as (ds1 & pre1 & fo1 & post1 & Harr1 & Hend1 & Hlive1 & ->).
  destruct Hinv2 as (ds2 & pre2 & fo2 & post2 & Harr2 & Hend2 & Hlive2 & ->).
  rewrite Harr1 in Harr2.
  apply Forall_app in Hlive1 as [Hds1 Hpre1].
  apply Forall_app in Hlive2 as [Hds2 Hpre2].
  destruct (first_split (Exists (fun fo => is_end fo = true)) _ _ _ _ _ _ Harr2)
    as (-> & Hbatch & ->).
  - by apply unmarked_batches.
  - apply Exists_app. right. by constructor.
  - by apply unmarked_batches.
  - apply Exists_app. right. by constructor.
  - destruct (first_split (fun fo => is_end fo = true) _ _ _ _ _ _ Hbatch)
      as (-> & _ & _); try done.
    + eapply Forall_impl; [exact Hpre1|]. intros fo Hfo. cbn beta in Hfo. congruence.
    + eapply Forall_impl; [exact Hpre2|]. intros fo Hfo. cbn beta in Hfo. congruence.
Qed.

End Interleaving.

(** ** Runs *)

Section FurtherRuns.

Import Collaborators.

Lemma decode_error_loses_held_frames_witness :
  let failing := Opens (fun k => {| decoded_frames := scenario_frames k;
                                    failure := Some InvalidDataError |}) in
  let clean := Opens (fun k => {| decoded_frames := scenario_frames k;
                                  failure := None |}) in
  let st := fst (sample (engine 1%float) failing) in
  write_queue (engine 1%float) failing []
    = (self st, [] ++ yields (trace st) ++ [PROCESSING_DONE_ITERABLE], Done) /\
  write_queue (engine 1%float) clean []
    = (self (flush_buffer (clear_trace st)),
       [] ++ yields (trace st) ++ yields (trace (flush_buffer (clear_trace st))),
       Done) /\
  exists flushed,
    yields (trace (flush_buffer (clear_trace st)))
      = flushed ++ [PROCESSING_DONE_ITERABLE].
Proof.
  apply (decode_error_loses_held_frames (engine 1%float) scenario_frames
           InvalidDataError []).
  - reflexivity.
  - repeat (constructor; [intros i; discriminate|]). constructor.
Defined.

Lemma launch_saves_released_frames_witness :
  launch (worker false) scenario_video "out" ∅ (busy_turns ++ repeat ConsumerTurn 4)
    = LaunchReturned
        {| worker_cfg := worker_cfg (worker false);
           processor :=
             fst (fst (processor_write_queue (processor (worker false)) scenario_video));
           worker_q := [];
           worker_devnull := false |}
        ({["out"]} ∪ ∅)
        (omap (saved_as false "out")
           (concat (gated_batches (gate_results (trace (fst
              (processor_sample (processor (worker false)) scenario_video))))))) /\
  processor_stats
    (fst (fst (processor_write_queue (processor (worker false)) scenario_video)))
    = stats (self (fst (processor_sample (processor (worker false)) scenario_video))).
Proof.
  apply (launch_saves_released_frames (worker false) scenario_video "out" ∅
           busy_turns 4).
  - reflexivity.
  - reflexivity.
  - reflexivity.
  - vm_compute. repeat constructor.
  - vm_compute. repeat constructor; intros i Hi;
      first [discriminate Hi | eexists; vm_compute; reflexivity].
  - vm_compute. lia.
  - vm_compute. lia.
Defined.

Lemma launch_hangs_without_sentinel_witness :
  exists r,
    launch (worker false) (OpenFails FileNotFoundError) "out" ∅
      (busy_turns ++ repeat ConsumerTurn 4) = LaunchRunning r /\
    status r = Polling.
Proof.
  apply (launch_hangs_without_sentinel (worker false) (OpenFails FileNotFoundError)
           "out" ∅ FileNotFoundError).
  - reflexivity.
  - reflexivity.
  - reflexivity.
  - vm_compute. constructor.
  - vm_compute. constructor.
Defined.

Lemma discard_mode_writes_nothing_witness :
  ("out" <> "" ->
   launch (worker true) scenario_video "out" ∅ busy_turns = LaunchRefused) /\
  match launch (worker true) scenario_video "" ∅ busy_turns with
  | LaunchRefused => False
  | LaunchRaised _ _ => False
  | LaunchRunning r => disk r = []
  | LaunchReturned _ directories' files => directories' = ∅ /\ files = []
  end.
Proof.
  apply (discard_mode_writes_nothing (worker true) scenario_video "out" ∅ busy_turns).
  reflexivity.
Defined.

Lemma reader_fails_on_missing_frame_time_witness :
  status (queue_reader false "out" (nameless_schedule ++ Poll :: relay_schedule))
    = Failed KeyError /\
  disk (queue_reader false "out" (nameless_schedule ++ Poll :: relay_schedule))
    = disk (queue_reader false "out" nameless_schedule)
      ++ omap (saved_as false "out") [frame_object_at 0.5%float 0].
Proof.
  apply (reader_fails_on_missing_frame_time "out" nameless_schedule relay_schedule
           [frame_object_at 0.5%float 0] nameless_object [frame_object_at 1.5%float 1]
           [] 7%nat).
  - reflexivity.
  - reflexivity.
  - vm_compute. repeat constructor.
  - repeat constructor. intros i Hi. eexists. vm_compute. reflexivity.
  - reflexivity.
  - reflexivity.
  - reflexivity.
Defined.

Lemma sampling_is_stable_witness :
  submitted_times (trace (fst (sample (engine 1%float) (Opens kept_decode))))
    = submitted_times (trace (fst (sample (engine 1%float) (Opens scenario_decode)))) /\
  statistic (fst (sample (engine 1%float) (Opens kept_decode))) "decoded"
    = statistic (fst (sample (engine 1%float) (Opens kept_decode))) "total".
Proof.
  apply (sampling_is_stable (engine 1%float) (engine 1%float) scenario_decode kept_decode).
  - reflexivity.
  - vm_compute. reflexivity.
Defined.

Lemma spaced_frames_all_kept_witness :
  submitted_times (trace (fst (sample (engine 1%float) (Opens kept_decode))))
    = timestamps (decoded_frames (kept_decode false)) /\
  statistic (fst (sample (engine 1%float) (Opens kept_decode))) "decoded"
    = statistic (fst (sample (engine 1%float) (Opens kept_decode))) "total".
Proof.
  apply (spaced_frames_all_kept (engine 1%float) kept_decode).
  - intros t [= <-]. reflexivity.
  - intros [|[|[|i]]] a b [= <-] [= <-]; reflexivity.
Defined.

Lemma reader_schedule_independent_witness :
  disk (queue_reader false "out" relay_schedule)
    = disk (queue_reader false "out" late_schedule) /\
  queue (queue_reader false "out" relay_schedule)
    = queue (queue_reader false "out" late_schedule).
Proof.
  apply (reader_schedule_independent false "out" relay_schedule late_schedule).
  - repeat constructor; intros i Hi;
      first [discriminate Hi | eexists; vm_compute; reflexivity].
  - reflexivity.
  - reflexivity.
  - reflexivity.
Defined.

End FurtherRuns.
